(** * Same-picture posting bot: interval codec, scheduler and command handlers

    A shallow embedding of [src/main.py] and the properties its specification
    states about it.

    Conventions of the embedding:
    - a Python [int] is a [Z];
    - a Python [str] is the list of its code points, each an [N]; [txt]
      turns an ASCII literal of the source into that list;
    - a raised exception is the left injection of a sum, [inl e];
    - the interpreter is CPython 3.11 with its defaults: [\d] and [int]
      accept the decimal digits of Unicode 14.0, converting between [int]
      and [str] refuses more than 4300 digits, and [timedelta] refuses more
      than 999999999 days. *)

From Stdlib Require Import ZArith NArith Ascii String List Lia Bool.
From stdpp Require Import base tactics option list gmap strings pretty.

Local Open Scope Z_scope.

(** ** Strings *)

Abbreviation pystr := (list N).

(** The code points of an ASCII literal. *)
Fixpoint txt (s : string) : pystr :=
  match s with
  | EmptyString => []
  | String a s' => N_of_ascii a :: txt s'
  end.

(** [s.startswith(p)] *)
Fixpoint startswith (s p : pystr) : bool :=
  match p, s with
  | [], _ => true
  | c :: p', c' :: s' => (c =? c')%N && startswith s' p'
  | _ :: _, [] => false
  end.

(** ** Exceptions *)

Inductive exn : Type :=
| ValueError (msg : pystr)
| KeyError (key : pystr)
| OverflowError (msg : pystr)
| FileNotFoundError (path : pystr)
| JSONDecodeError
| IsADirectoryError (path : pystr)
| FileExistsError (path : pystr)
| NetworkError (msg : pystr).

(** [str(e)] for the exceptions the handlers report. *)
Definition str_exn (e : exn) : pystr :=
  match e with
  | ValueError msg => msg
  | KeyError key => txt "'" ++ key ++ txt "'"
  | OverflowError msg => msg
  | FileNotFoundError p =>
      txt "[Errno 2] No such file or directory: '" ++ p ++ txt "'"
  | JSONDecodeError => txt "Expecting value"
  | IsADirectoryError p => txt "[Errno 21] Is a directory: '" ++ p ++ txt "'"
  | FileExistsError p => txt "[Errno 17] File exists: '" ++ p ++ txt "'"
  | NetworkError msg => msg
  end.

(** Sequencing of computations that may raise. *)
Definition ebind {A B : Type} (m : exn + A) (f : A -> exn + B) : exn + B :=
  match m with
  | inl e => inl e
  | inr a => f a
  end.

Notation "'let?' x ':=' m 'in' k" := (ebind m (fun x => k))
  (at level 10, x name, m at level 100, k at level 200).

(** ** Python truthiness *)

(** [bool(s)] for a string: the empty string is false. *)
Definition truthy_str (s : pystr) : bool :=
  match s with
  | [] => false
  | _ :: _ => true
  end.

(** [bool(g)] for an optional string (a regex group: [None] or a str). *)
Definition truthy_group (g : option pystr) : bool :=
  match g with
  | None => false
  | Some s => truthy_str s
  end.

(** [bool(n)] for an optional integer (a JSON null or a number). *)
Definition truthy_int (n : option Z) : bool :=
  match n with
  | None => false
  | Some v => negb (v =? 0)
  end.

(** [any(xs)] over a tuple of groups. *)
Definition py_any (gs : list (option pystr)) : bool :=
  existsb truthy_group gs.

(** ** Decimal digits

    [\d] in a [str] pattern and [int] on a [str] accept the same characters,
    those with a decimal value in the Unicode database.  In Unicode 14.0 (the
    database of CPython 3.11) they come in 66 runs of ten consecutive code
    points, valued 0 to 9 in order; [decimal_runs] lists the first code point
    of each run. *)
Definition decimal_runs : list N :=
  [48; 1632; 1776; 1984; 2406; 2534; 2662; 2790; 2918; 3046; 3174; 3302;
   3430; 3558; 3664; 3792; 3872; 4160; 4240; 6112; 6160; 6470; 6608; 6784;
   6800; 6992; 7088; 7232; 7248; 42528; 43216; 43264; 43472; 43504; 43600;
   44016; 65296; 66720; 68912; 69734; 69872; 69942; 70096; 70384; 70736;
   70864; 71248; 71360; 71472; 71904; 72016; 72784; 73040; 73120; 92768;
   92864; 93008; 120782; 120792; 120802; 120812; 120822; 123200; 123632;
   125264; 130032]%N.

(** The run a code point belongs to, if it is a decimal digit. *)
Definition decimal_run (c : N) : option N :=
  List.find (fun b => (b <=? c) && (c <? b + 10))%N decimal_runs.

Definition is_digit (c : N) : bool :=
  match decimal_run c with
  | Some _ => true
  | None => false
  end.

Definition digit_value (c : N) : Z :=
  match decimal_run c with
  | Some b => Z.of_N (c - b)
  | None => 0
  end.

Fixpoint all_digits (s : pystr) : bool :=
  match s with
  | c :: s' => is_digit c && all_digits s'
  | [] => true
  end.

(** The number a string of decimal digits denotes. *)
Fixpoint number_from (acc : Z) (ds : pystr) : Z :=
  match ds with
  | [] => acc
  | c :: ds' => number_from (acc * 10 + digit_value c) ds'
  end.

Definition number (ds : pystr) : Z := number_from 0 ds.

(** ** Converting between [int] and [str] *)

(** [sys.int_info.default_max_str_digits] *)
Definition max_str_digits : Z := 4300.

(** The least integer [str] refuses to print: [10 ** 4300]. *)
Definition int_str_bound : Z := 10 ^ 4300.

Definition too_many_digits_for_int (digits : nat) : exn :=
  ValueError
    (txt "Exceeds the limit (4300 digits) for integer string conversion: value has "
     ++ txt (pretty (Z.of_nat digits))
     ++ txt " digits; use sys.set_int_max_str_digits() to increase the limit").

Definition too_many_digits_for_str : exn :=
  ValueError
    (txt "Exceeds the limit (4300 digits) for integer string conversion; use sys.set_int_max_str_digits() to increase the limit").

(** [int(s)] on a string of decimal digits.  The only strings the program
    passes to [int] are captures of [\d+], non-empty runs of decimal digits;
    signs, spaces and underscores, which [int] also accepts, cannot occur in
    them and are not modelled: any other string is an invalid literal. *)
Definition py_int (s : pystr) : exn + Z :=
  if all_digits s && truthy_str s then
    if max_str_digits <? Z.of_nat (length s)
    then inl (too_many_digits_for_int (length s))
    else inr (number s)
  else inl (ValueError (txt "invalid literal for int() with base 10")).

(** [int(g or 0)]: a group that did not take part in the match counts 0. *)
Definition int_or_0 (g : option pystr) : exn + Z :=
  match g with
  | Some s => if truthy_str s then py_int s else inr 0
  | None => inr 0
  end.

(** [str(n)], also as [f"{n}"]: decimal, refused beyond 4300 digits. *)
Definition py_str (n : Z) : exn + pystr :=
  if max_str_digits <? Z.of_nat (String.length (pretty (Z.abs n)))
  then inl too_many_digits_for_str
  else inr (txt (pretty n)).

(** ** The fragment of [re] used by the source

    Backtracking matcher in continuation-passing style, in the order Python's
    engine explores: a greedy quantifier tries the longest repetition first
    and falls back when the rest of the pattern fails.  The continuation gets
    the text matched by the sub-pattern, the remaining input and the groups
    captured so far. *)

Inductive regex : Type :=
| Digits1                       (* \d+   *)
| Lit (c : N)                   (* c     *)
| Cat (r1 r2 : regex)           (* r1r2  *)
| Opt (r : regex)               (* (?:r)? *)
| Cap (i : nat) (r : regex).    (* (r), the i-th group *)

Definition groups := list (option pystr).

Definition or_else {R : Type} (a b : option R) : option R :=
  match a with
  | Some x => Some x
  | None => b
  end.

Fixpoint star_digits {R : Type} (acc s : pystr)
    (k : pystr -> pystr -> option R) : option R :=
  match s with
  | c :: s' =>
      if is_digit c
      then or_else (star_digits (acc ++ [c]) s' k) (k acc s)
      else k acc s
  | [] => k acc s
  end.

Fixpoint rmatch {R : Type} (r : regex) (s : pystr) (g : groups)
    (k : pystr -> pystr -> groups -> option R) : option R :=
  match r with
  | Digits1 =>
      match s with
      | c :: s' =>
          if is_digit c
          then star_digits [c] s' (fun m rest => k m rest g)
          else None
      | [] => None
      end
  | Lit c =>
      match s with
      | c' :: s' => if (c =? c')%N then k [c] s' g else None
      | [] => None
      end
  | Cat r1 r2 =>
      rmatch r1 s g (fun m1 s1 g1 =>
        rmatch r2 s1 g1 (fun m2 s2 g2 => k (m1 ++ m2) s2 g2))
  | Opt r' => or_else (rmatch r' s g k) (k [] s g)
  | Cap i r' =>
      rmatch r' s g (fun m rest g' => k m rest (<[Nat.pred i := Some m]> g'))
  end.

(** Number of capture groups of a pattern. *)
Fixpoint group_count (r : regex) : nat :=
  match r with
  | Digits1 | Lit _ => 0
  | Cat r1 r2 => Nat.max (group_count r1) (group_count r2)
  | Opt r' => group_count r'
  | Cap i r' => Nat.max i (group_count r')
  end.

(** A match object: the matched text (group 0), what follows it, and the
    numbered groups. *)
Record re_match_obj : Type := MatchObj {
  m_text : pystr;
  m_rest : pystr;
  m_groups : groups
}.

(** [re.match(pattern, s)]: an anchored prefix match. *)
Definition re_match (r : regex) (s : pystr) : option re_match_obj :=
  rmatch r s (replicate (group_count r) None)
    (fun m rest g => Some (MatchObj m rest g)).

(** [match.group(i)] for [1 <= i]. *)
Definition m_group (m : re_match_obj) (i : nat) : option pystr :=
  default None (m_groups m !! Nat.pred i).

(** ** IntervalCodec *)

(** The unit letters [d], [h], [m], [s]. *)
Definition unit_d : N := 100.
Definition unit_h : N := 104.
Definition unit_m : N := 109.
Definition unit_s : N := 115.

(** One optional component [(?:(\d+)u)?] capturing into group [i]. *)
Definition component (i : nat) (u : N) : regex :=
  Opt (Cat (Cap i Digits1) (Lit u)).

(** r'(?:(\d+)d)?(?:(\d+)h)?(?:(\d+)m)?(?:(\d+)s)?' *)
Definition pattern : regex :=
  Cat (component 1 unit_d)
      (Cat (component 2 unit_h) (Cat (component 3 unit_m) (component 4 unit_s))).

Definition invalid_format (interval_str : pystr) : exn :=
  ValueError (txt "Invalid time interval format: " ++ interval_str).

Definition parse_time_interval (interval_str : pystr) : exn + Z :=
  if negb (truthy_str interval_str) then inr 0
  else
    match re_match pattern interval_str with
    | None => inl (invalid_format interval_str)
    | Some m =>
        if negb (py_any (m_groups m)) then inl (invalid_format interval_str)
        else
          let? days := int_or_0 (m_group m 1) in
          let? hours := int_or_0 (m_group m 2) in
          let? minutes := int_or_0 (m_group m 3) in
          let? seconds := int_or_0 (m_group m 4) in
          inr (days * 86400 + hours * 3600 + minutes * 60 + seconds)
    end.

(** [divmod(a, b)]: floor division and its remainder, as [Z.div]/[Z.modulo]. *)
Definition divmod (a b : Z) : Z * Z := (a `div` b, a `mod` b).

(** [result += f"{n}u"] *)
Definition add_field (result : pystr) (n : Z) (u : N) : exn + pystr :=
  let? digits := py_str n in
  inr (result ++ digits ++ [u]).

Definition format_time_interval (seconds : Z) : exn + pystr :=
  let '(days, remainder) := divmod seconds 86400 in
  let '(hours, remainder) := divmod remainder 3600 in
  let '(minutes, seconds) := divmod remainder 60 in
  let result := [] in
  let? result := if 0 <? days then add_field result days unit_d
                 else inr result in
  let? result := if 0 <? hours then add_field result hours unit_h
                 else inr result in
  let? result := if 0 <? minutes then add_field result minutes unit_m
                 else inr result in
  let? result := if (0 <? seconds) || negb (truthy_str result)
                 then add_field result seconds unit_s
                 else inr result in
  inr result.

(** [timedelta(seconds=n)] for an integer [n], kept as its seconds.  The
    days, [n // 86400], must not exceed 999999999 in magnitude. *)
Definition timedelta_seconds (n : Z) : exn + Z :=
  let days := n `div` 86400 in
  if (-999999999 <=? days) && (days <=? 999999999) then inr n
  else if (-2147483648 <=? days) && (days <=? 2147483647) then
    inl (OverflowError
           (txt "days=" ++ txt (pretty days)
            ++ txt "; must have magnitude <= 999999999"))
  else inl (OverflowError (txt "Python int too large to convert to C int")).

(** ** Persisted configuration *)

(** What [config['last_post_time']] can find: no such key, [null], or a
    number. *)
Inductive stored_time : Type :=
| NoKey
| JNull
| JInt (t : Z).

(** Modelled from the spec: the schema of [config.json].  The file is not
    part of the repository; the source reads and writes exactly these keys.
    The first five are required; [last_post_time] is the optional one. *)
Record Config : Type := mkConfig {
  admin_id : Z;
  bot_token : pystr;
  channel_name : pystr;
  picture_path : pystr;
  post_interval : pystr;
  last_post_time : stored_time
}.

(** [config['channel_name'] = v] and its siblings. *)
Definition set_channel_name (v : pystr) (c : Config) : Config :=
  mkConfig (admin_id c) (bot_token c) v (picture_path c) (post_interval c)
           (last_post_time c).

Definition set_picture_path (v : pystr) (c : Config) : Config :=
  mkConfig (admin_id c) (bot_token c) (channel_name c) v (post_interval c)
           (last_post_time c).

Definition set_post_interval (v : pystr) (c : Config) : Config :=
  mkConfig (admin_id c) (bot_token c) (channel_name c) (picture_path c) v
           (last_post_time c).

Definition set_last_post_time (v : Z) (c : Config) : Config :=
  mkConfig (admin_id c) (bot_token c) (channel_name c) (picture_path c)
           (post_interval c) (JInt v).

(** [config['last_post_time']] as an expression. *)
Definition get_last_post_time (c : Config) : exn + option Z :=
  match last_post_time c with
  | NoKey => inl (KeyError (txt "last_post_time"))
  | JNull => inr None
  | JInt t => inr (Some t)
  end.

(** ** The world the handlers act on *)

(** What [open(CONFIG_FILE)] followed by [json.load] can find. *)
Inductive config_json : Type :=
| NoFile
| InvalidJSON
| Stored (c : Config).

Inductive level : Type := INFO | ERROR.

(** The two callbacks handed to [job_queue.run_once]. *)
Inductive job : Type := PostScheduledPicture | ScheduleNextPost.

Inductive node : Type := RegularFile | Directory.

Record World : Type := mkWorld {
  config_file : config_json;              (* config.json *)
  files : gmap (list N) node;             (* the rest of the file system *)
  replies : list pystr;                   (* update.message.reply_text *)
  logs : list (level * pystr);            (* logger.info / logger.error *)
  channel_posts : list (pystr * pystr);   (* send_photo: chat_id, picture *)
  job_queue : list (Z * job)              (* run_once: delay in seconds, job *)
}.

Definition with_config_file (v : config_json) (w : World) : World :=
  mkWorld v (files w) (replies w) (logs w) (channel_posts w) (job_queue w).

Definition with_files (v : gmap (list N) node) (w : World) : World :=
  mkWorld (config_file w) v (replies w) (logs w) (channel_posts w)
          (job_queue w).

Definition with_replies (v : list pystr) (w : World) : World :=
  mkWorld (config_file w) (files w) v (logs w) (channel_posts w) (job_queue w).

Definition with_logs (v : list (level * pystr)) (w : World) : World :=
  mkWorld (config_file w) (files w) (replies w) v (channel_posts w)
          (job_queue w).

Definition with_channel_posts (v : list (pystr * pystr)) (w : World)
    : World :=
  mkWorld (config_file w) (files w) (replies w) (logs w) v (job_queue w).

Definition with_job_queue (v : list (Z * job)) (w : World) : World :=
  mkWorld (config_file w) (files w) (replies w) (logs w) (channel_posts w) v.

(** An incoming command: who sent it, [context.args], and the photo sizes
    (file ids) of the message it replies to, if it replies to one. *)
Record Update : Type := mkUpdate {
  effective_user_id : Z;
  args : list pystr;
  reply_to_photo : option (list pystr)
}.

(** ** State and exceptions *)

Definition M (A : Type) : Type := World -> (exn + A) * World.

Definition ret {A : Type} (a : A) : M A := fun w => (inr a, w).

Definition raise {A : Type} (e : exn) : M A := fun w => (inl e, w).

Definition lift {A : Type} (r : exn + A) : M A := fun w => (r, w).

Definition bind {A B : Type} (m : M A) (f : A -> M B) : M B :=
  fun w =>
    match m w with
    | (inr a, w') => f a w'
    | (inl e, w') => (inl e, w')
    end.

(** [try: m except Exception as e: h e] *)
Definition try_except {A : Type} (m : M A) (h : exn -> M A) : M A :=
  fun w =>
    match m w with
    | (inr a, w') => (inr a, w')
    | (inl e, w') => h e w'
    end.

Notation "'let*' x ':=' m 'in' k" := (bind m (fun x => k))
  (at level 10, x name, m at level 100, k at level 200).

Definition nl : pystr := [10%N].

Definition CONFIG_FILE : pystr := txt "config.json".

Definition logger_info (msg : pystr) : M unit :=
  fun w => (inr tt, with_logs (logs w ++ [(INFO, msg)]) w).

Definition logger_error (msg : pystr) : M unit :=
  fun w => (inr tt, with_logs (logs w ++ [(ERROR, msg)]) w).

Definition load_config : M Config :=
  fun w =>
    match config_file w with
    | Stored c => (inr c, w)
    | NoFile =>
        bind (logger_error
                (txt "Config file " ++ CONFIG_FILE ++ txt " not found."))
             (fun _ => raise (FileNotFoundError CONFIG_FILE)) w
    | InvalidJSON =>
        bind (logger_error
                (txt "Error parsing " ++ CONFIG_FILE
                 ++ txt ". Make sure it's valid JSON."))
             (fun _ => raise JSONDecodeError) w
    end.

Definition save_config (config : Config) : M unit :=
  let* _ := (fun w => (inr tt, with_config_file (Stored config) w)) in
  logger_info (txt "Config saved successfully.").

Definition reply_text (text : pystr) : M unit :=
  fun w => (inr tt, with_replies (replies w ++ [text]) w).

(** [os.path.exists(path)] *)
Definition path_exists (path : pystr) : M bool :=
  fun w =>
    match files w !! path with
    | Some _ => (inr true, w)
    | None => (inr false, w)
    end.

(** [open(path, 'rb')] *)
Definition open_rb (path : pystr) : M unit :=
  fun w =>
    match files w !! path with
    | Some RegularFile => (inr tt, w)
    | Some Directory => (inl (IsADirectoryError path), w)
    | None => (inl (FileNotFoundError path), w)
    end.

(** [os.makedirs(path, exist_ok=True)] for a one-level path. *)
Definition makedirs (path : pystr) : M unit :=
  fun w =>
    match files w !! path with
    | Some Directory => (inr tt, w)
    | Some RegularFile => (inl (FileExistsError path), w)
    | None => (inr tt, with_files (<[path := Directory]> (files w)) w)
    end.

(** [application.job_queue.run_once(callback, timedelta(seconds=delay))]:
    the [timedelta] is built first and may raise. *)
Definition run_once (callback : job) (delay : Z) : M unit :=
  let* when := lift (timedelta_seconds delay) in
  fun w => (inr tt, with_job_queue (job_queue w ++ [(when, callback)]) w).

(** The [datetime] module, as far as [status] uses it. *)
Class Datetime : Type := {
  datetime : Type;
  fromtimestamp : Z -> exn + datetime;        (* datetime.fromtimestamp(t) *)
  add_seconds : datetime -> Z -> exn + datetime;  (* d + timedelta *)
  strftime : datetime -> pystr;               (* '%Y-%m-%d %H:%M:%S' *)
  later : datetime -> datetime -> bool;       (* d1 > d2 *)
  minus : datetime -> datetime -> Z * Z       (* (d1 - d2).days, .seconds *)
}.

Section Handlers.

Context `{Datetime}.

(** What one invocation reads from outside: the clock, and whether the
    Telegram calls go through ([Some msg] is the error they raise).
    [time_time] is the integer part of a float, far below [int_str_bound]. *)
Record Env : Type := mkEnv {
  time_time : Z;                       (* int(time.time()) *)
  datetime_now : datetime;             (* datetime.now() *)
  send_photo_error : option pystr;
  download_error : option pystr
}.

(** [context.bot.send_photo(chat_id=..., photo=...)] *)
Definition send_photo (env : Env) (chat_id photo : pystr) : M unit :=
  match send_photo_error env with
  | Some msg => raise (NetworkError msg)
  | None =>
      fun w =>
        (inr tt, with_channel_posts (channel_posts w ++ [(chat_id, photo)]) w)
  end.

(** [get_file] and [download_to_drive] *)
Definition download (env : Env) (file_id file_path : pystr) : M unit :=
  match download_error env with
  | Some msg => raise (NetworkError msg)
  | None =>
      fun w => (inr tt, with_files (<[file_path := RegularFile]> (files w)) w)
  end.

Definition not_authorized : pystr :=
  txt "You are not authorized to use this bot.".

(** [update.effective_user.id != config['admin_id']] *)
Definition not_admin (update : Update) (config : Config) : bool :=
  negb (effective_user_id update =? admin_id config).

Definition start (update : Update) (env : Env) : M unit :=
  let* config := load_config in
  if not_admin update config then reply_text not_authorized
  else
    reply_text
      (txt "Welcome to the Same Picture Posting Bot!" ++ nl ++ nl
       ++ txt "Commands:" ++ nl
       ++ txt "/status - Show current bot settings" ++ nl
       ++ txt "/setchannel @channel_name - Set the target channel" ++ nl
       ++ txt "/setinterval 1d12h30m - Set posting interval" ++ nl
       ++ txt "/post - Post the picture now" ++ nl
       ++ txt "/setpicture - Reply to a photo to set it as the picture to post").

(** The two decorations of the status text, as the code points the source
    file holds. *)
Definition chart : pystr := [240; 376; 8220; 352]%N.
Definition bullet : pystr := [240; 376; 8221; 185]%N.

Definition no_posts_yet : pystr :=
  bullet ++ txt " No posts have been made yet." ++ nl.

(** Lines 113-118: the settings every status report starts with; [shown]
    is the formatted interval. *)
Definition settings_text (config : Config) (shown : pystr) : pystr :=
  chart ++ txt " Current Bot Settings " ++ chart ++ nl ++ nl
  ++ bullet ++ txt " Channel: " ++ channel_name config ++ nl
  ++ bullet ++ txt " Picture: " ++ picture_path config ++ nl
  ++ bullet ++ txt " Posting interval: " ++ post_interval config ++ txt " ("
  ++ shown ++ txt ")" ++ nl.

Definition status (update : Update) (env : Env) : M unit :=
  let* config := load_config in
  if not_admin update config then reply_text not_authorized
  else
    let* interval_seconds :=
      lift (parse_time_interval (post_interval config)) in
    let* shown := lift (format_time_interval interval_seconds) in
    let status_text := settings_text config shown in
    let* last := lift (get_last_post_time config) in
    let* status_text :=
      if truthy_int last then
        let* last_post := lift (fromtimestamp (default 0 last)) in
        let* delta := lift (timedelta_seconds interval_seconds) in
        let* next_post := lift (add_seconds last_post delta) in
        let now := datetime_now env in
        let status_text :=
          status_text
          ++ bullet ++ txt " Last post: " ++ strftime last_post ++ nl
          ++ bullet ++ txt " Next post: " ++ strftime next_post ++ nl in
        if later next_post now then
          let '(time_left_days, time_left_seconds) := minus next_post now in
          let '(hours, remainder) := divmod time_left_seconds 3600 in
          let '(minutes, seconds) := divmod remainder 60 in
          ret (status_text
               ++ bullet ++ txt " Time until next post: "
               ++ txt (pretty time_left_days) ++ txt "d "
               ++ txt (pretty hours) ++ txt "h "
               ++ txt (pretty minutes) ++ txt "m "
               ++ txt (pretty seconds) ++ txt "s" ++ nl)
        else ret status_text
      else ret (status_text ++ no_posts_yet) in
    reply_text status_text.

Definition set_channel (update : Update) (env : Env) : M unit :=
  let* config := load_config in
  if not_admin update config then reply_text not_authorized
  else
    match args update with
    | channel_name :: _ =>
        if negb (startswith channel_name (txt "@")) then
          reply_text
            (txt "Please provide a valid channel name starting with @." ++ nl
             ++ txt "Example: /setchannel @your_channel_name")
        else
          let config := set_channel_name channel_name config in
          let* _ := save_config config in
          reply_text (txt "Channel set to " ++ channel_name)
    | [] =>
        reply_text
          (txt "Please provide a valid channel name starting with @." ++ nl
           ++ txt "Example: /setchannel @your_channel_name")
    end.

Definition set_interval (update : Update) (env : Env) : M unit :=
  let* config := load_config in
  if not_admin update config then reply_text not_authorized
  else
    match args update with
    | [] =>
        reply_text
          (txt "Please provide a time interval." ++ nl
           ++ txt "Examples:" ++ nl
           ++ txt "/setinterval 1d - Once per day" ++ nl
           ++ txt "/setinterval 12h - Every 12 hours" ++ nl
           ++ txt "/setinterval 30m - Every 30 minutes" ++ nl
           ++ txt "/setinterval 1d6h30m - 1 day, 6 hours and 30 minutes"
           ++ nl)
    | interval_str :: _ =>
        try_except
          (let* seconds := lift (parse_time_interval interval_str) in
           if seconds <? 10 then
             reply_text (txt "Interval must be at least 10 seconds.")
           else
             let config := set_post_interval interval_str config in
             let* _ := save_config config in
             let* shown := lift (format_time_interval seconds) in
             reply_text
               (txt "Posting interval set to " ++ interval_str ++ txt " ("
                ++ shown ++ txt ")"))
          (fun e =>
             match e with
             | ValueError _ => reply_text (str_exn e)
             | _ => raise e
             end)
    end.

Definition set_picture (update : Update) (env : Env) : M unit :=
  let* config := load_config in
  if not_admin update config then reply_text not_authorized
  else
    match reply_to_photo update with
    | Some (size :: sizes) =>
        let photo := List.last sizes size in
        let* _ := makedirs (txt "pictures") in
        let file_path :=
          txt "pictures/picture_" ++ txt (pretty (time_time env))
          ++ txt ".jpg" in
        let* _ := download env photo file_path in
        let config := set_picture_path file_path config in
        let* _ := save_config config in
        reply_text (txt "Picture set to " ++ file_path)
    | _ =>
        reply_text
          (txt "Please reply to a photo with /setpicture to set it as the picture to post.")
    end.

Definition post_now (update : Update) (env : Env) : M unit :=
  let* config := load_config in
  if not_admin update config then reply_text not_authorized
  else
    try_except
      (let* found := path_exists (picture_path config) in
       if negb found then
         reply_text
           (txt "Picture not found: " ++ picture_path config ++ nl
            ++ txt "Please set a valid picture using /setpicture.")
       else
         let* _ := open_rb (picture_path config) in
         let* _ :=
           send_photo env (channel_name config) (picture_path config) in
         let config := set_last_post_time (time_time env) config in
         let* _ := save_config config in
         reply_text (txt "Picture posted successfully!"))
      (fun e => reply_text (txt "Error posting picture: " ++ str_exn e)).

Definition post_scheduled_picture (env : Env) : M unit :=
  let* config := load_config in
  try_except
    (let* found := path_exists (picture_path config) in
     if negb found then
       logger_error (txt "Picture not found: " ++ picture_path config)
     else
       let* _ := open_rb (picture_path config) in
       let* _ :=
         send_photo env (channel_name config) (picture_path config) in
       let config := set_last_post_time (time_time env) config in
       let* _ := save_config config in
       logger_info
         (txt "Scheduled picture posted to " ++ channel_name config))
    (fun e =>
       logger_error
         (txt "Error posting scheduled picture: " ++ str_exn e)).

(** Lines 295-307 of the source: the delay until the next post, from the
    value read under [last_post_time]. *)
Definition next_delay (last : option Z) (interval_seconds now : Z) : Z :=
  if truthy_int last then
    let last_post_time := default 0 last in
    let next_post_time := last_post_time + interval_seconds in
    if next_post_time <=? now then 1 else next_post_time - now
  else interval_seconds.

(** Lines 309-321: what [schedule_next_post] does with the delay it has
    computed: it logs it, queues the post after [delay] seconds and its own
    next run after [delay + 1]. *)
Definition announce_and_queue (delay : Z) : M unit :=
  let* shown := lift (format_time_interval delay) in
  let* _ := logger_info (txt "Scheduling next post in " ++ shown) in
  let* _ := run_once PostScheduledPicture delay in
  run_once ScheduleNextPost (delay + 1).

Definition schedule_next_post (env : Env) : M unit :=
  let* config := load_config in
  let* interval_seconds :=
    lift (parse_time_interval (post_interval config)) in
  let* last := lift (get_last_post_time config) in
  let delay := next_delay last interval_seconds (time_time env) in
  announce_and_queue delay.

(** The commands registered in [main]. *)
Inductive command : Type :=
| CmdStart | CmdStatus | CmdSetChannel | CmdSetInterval | CmdSetPicture
| CmdPost.

Definition handler (c : command) : Update -> Env -> M unit :=
  match c with
  | CmdStart => start
  | CmdStatus => status
  | CmdSetChannel => set_channel
  | CmdSetInterval => set_interval
  | CmdSetPicture => set_picture
  | CmdPost => post_now
  end.

End Handlers.

(** What the specification asks of a [setinterval] argument: present,
    parseable, and at least 10 seconds. *)
Definition acceptable_interval (args : list pystr) : bool :=
  match args with
  | [] => false
  | interval_str :: _ =>
      match parse_time_interval interval_str with
      | inr seconds => 10 <=? seconds
      | inl _ => false
      end
  end.

(** The outcome of a post attempt, manual or scheduled: either the stored
    configuration is untouched, or the picture went out and the time of the
    post was recorded. *)
Definition post_outcome `{Datetime} (env : Env) (w w' : World) (c : Config)
    : Prop :=
  config_file w' = Stored c
  \/ (send_photo_error env = None
      /\ files w !! picture_path c = Some RegularFile
      /\ channel_posts w'
         = channel_posts w ++ [(channel_name c, picture_path c)]
      /\ config_file w' = Stored (set_last_post_time (time_time env) c)).

(** The least number of seconds [timedelta] refuses: 1000000000 days. *)
Definition timedelta_bound : Z := 86400000000000.

(** ** Entry points

    Everything that runs after start-up is a command handler or one of the
    two callbacks queued by [schedule_next_post]. *)

(** The callbacks behind the two kinds of queued job (lines 312-321). *)
Definition run_job `{Datetime} (j : job) (env : Env) : M unit :=
  match j with
  | PostScheduledPicture => post_scheduled_picture env
  | ScheduleNextPost => schedule_next_post env
  end.

(** [main] up to the polling loop: the configuration must load (its token
    builds the application), then the first post is scheduled. *)
Definition main `{Datetime} (env : Env) : M unit :=
  let* config := load_config in
  schedule_next_post env.

Inductive entry_point : Type :=
| OnCommand (cmd : command) (update : Update)
| OnJob (j : job).

Definition run_entry `{Datetime} (e : entry_point) (env : Env) : M unit :=
  match e with
  | OnCommand cmd update => handler cmd update env
  | OnJob j => run_job j env
  end.

(** Entry points run one after another, each to its end, whatever each
    returns or raises (the framework logs an exception and goes on). *)
Fixpoint run_all `{Datetime} (es : list (entry_point * Env)) (w : World)
    : World :=
  match es with
  | [] => w
  | (e, env) :: es' => run_all es' (snd (run_entry e env w))
  end.

(** The ways a stored configuration is ever rewritten. *)
Inductive config_step (c : Config) : Config -> Prop :=
| step_same : config_step c c
| step_channel (v : pystr) :
    startswith v (txt "@") = true -> config_step c (set_channel_name v c)
| step_interval (v : pystr) (n : Z) :
    parse_time_interval v = inr n -> 10 <= n ->
    config_step c (set_post_interval v c)
| step_picture (v : pystr) : config_step c (set_picture_path v c)
| step_posted (t : Z) : config_step c (set_last_post_time t c).

(** The stored interval respects the floor [set_interval] enforces. *)
Definition interval_ok (c : Config) : Prop :=
  exists n, parse_time_interval (post_interval c) = inr n /\ 10 <= n.

(** The stored channel name has the form [set_channel] asks for. *)
Definition channel_ok (c : Config) : Prop :=
  startswith (channel_name c) (txt "@") = true.

(** A [Datetime] to run the handlers with on concrete inputs: a time is its
    number of seconds since the epoch, printed as that number. *)
Definition seconds_clock : Datetime := {|
  datetime := Z;
  fromtimestamp := fun t => inr t;
  add_seconds := fun d n => inr (d + n);
  strftime := fun d => txt (pretty d);
  later := fun d1 d2 => d2 <? d1;
  minus := fun d1 d2 => divmod (d1 - d2) 86400
|}.

Definition sample_config (interval : string) (last : stored_time) : Config :=
  mkConfig 42 (txt "token") (txt "@channel") (txt "pictures/picture_1.jpg")
           (txt interval) last.

Definition sample_world (config : Config) : World :=
  mkWorld (Stored config) {[ txt "pictures/picture_1.jpg" := RegularFile ]}
          [] [] [] [].

Definition sample_env (now : Z) (send_error : option pystr)
    : @Env seconds_clock :=
  @mkEnv seconds_clock now now send_error None.

Definition sample_trace : list (entry_point * @Env seconds_clock) :=
  [(OnCommand CmdSetInterval (mkUpdate 42 [txt "2h"] None),
    sample_env 1000 None);
   (OnCommand CmdSetChannel (mkUpdate 42 [txt "news"] None),
    sample_env 1001 None);
   (OnJob PostScheduledPicture, sample_env 1002 None);
   (OnJob ScheduleNextPost, sample_env 1003 None)].

Definition posted_config : Config := sample_config "1m" (JInt 100).

Definition admin_update : Update := mkUpdate 42 [] None.

Definition world_without_config : World := mkWorld NoFile ∅ [] [] [] [].

(** An interval that parses, every number within 4300 digits, to a value
    whose day count has 4301: 4300 nines of days and 99999 hours. *)
Definition huge_interval : pystr := replicate 4300 57%N ++ txt "d99999h".

Definition huge_seconds : Z := (int_str_bound - 1) * 86400 + 99999 * 3600.

Definition huge_config : Config :=
  mkConfig 42 (txt "token") (txt "@channel") (txt "pictures/picture_1.jpg")
           huge_interval (JInt 0).

(** ** What the pattern does, read left to right

    The four components are optional and nothing follows them, so the
    backtracking search never has to give a component back: each unit in turn
    takes the longest run of digits followed by its letter, or nothing.
    [scan] is that reading; [re_match_pattern] below proves it is what
    [re_match pattern] computes. *)

Fixpoint span_digits (s : pystr) : pystr * pystr :=
  match s with
  | c :: s' =>
      if is_digit c
      then let '(ds, r) := span_digits s' in (c :: ds, r)
      else ([], s)
  | [] => ([], [])
  end.

(** The digits and the rest when [s] starts with [<int>u]. *)
Definition take_component (u : N) (s : pystr) : option (pystr * pystr) :=
  match span_digits s with
  | (c :: ds, c' :: rest) =>
      if (u =? c')%N then Some (c :: ds, rest) else None
  | _ => None
  end.

Definition step (i : nat) (u : N) (s : pystr) (g : groups)
    : pystr * pystr * groups :=
  match take_component u s with
  | Some (ds, rest) => (ds ++ [u], rest, <[Nat.pred i := Some ds]> g)
  | None => ([], s, g)
  end.

Definition scan (s : pystr) : re_match_obj :=
  let '(m1, s1, g1) := step 1 unit_d s (replicate 4 None) in
  let '(m2, s2, g2) := step 2 unit_h s1 g1 in
  let '(m3, s3, g3) := step 3 unit_m s2 g2 in
  let '(m4, s4, g4) := step 4 unit_s s3 g3 in
  MatchObj (m1 ++ (m2 ++ (m3 ++ m4))) s4 g4.

(** The same reading over a list of unit letters: the captures in order and
    the input left over. *)
Fixpoint scan_units (us : list N) (s : pystr) : groups * pystr :=
  match us with
  | [] => ([], s)
  | u :: us' =>
      match take_component u s with
      | Some (ds, rest) =>
          let '(g, r) := scan_units us' rest in (Some ds :: g, r)
      | None => let '(g, r) := scan_units us' s in (None :: g, r)
      end
  end.

Definition units : list N := [unit_d; unit_h; unit_m; unit_s].

(** Seconds denoted by the four captures. *)
Definition total_seconds (g : groups) : exn + Z :=
  let? days := int_or_0 (default None (g !! 0%nat)) in
  let? hours := int_or_0 (default None (g !! 1%nat)) in
  let? minutes := int_or_0 (default None (g !! 2%nat)) in
  let? seconds := int_or_0 (default None (g !! 3%nat)) in
  inr (days * 86400 + hours * 3600 + minutes * 60 + seconds).

(** A compact duration: the optional components [<int>d], [<int>h],
    [<int>m], [<int>s] in that order and nothing else, that is, the pattern
    read to its end leaves no input. *)
Definition compact_duration (s : pystr) : bool :=
  bool_decide (snd (scan_units units s) = []).

(** No number of the duration has more digits than [int] converts. *)
Definition short_enough (o : option pystr) : bool :=
  match o with
  | Some ds => Z.of_nat (length ds) <=? max_str_digits
  | None => true
  end.

Definition within_digit_limit (s : pystr) : bool :=
  forallb short_enough (fst (scan_units units s)).

(** The same notion in the specification's words: for each unit in turn,
    either nothing or a non-empty run of digits followed by the unit's
    letter. *)
Definition component_text (u : N) (g : pystr) : Prop :=
  g = []
  \/ exists ds, all_digits ds = true /\ truthy_str ds = true
                /\ g = ds ++ [u].

Fixpoint made_of (us : list N) (s : pystr) : Prop :=
  match us with
  | [] => s = []
  | u :: us' =>
      exists g s', component_text u g /\ s = g ++ s' /\ made_of us' s'
  end.

(** The units the pattern has not tried yet when the input [s] runs out:
    those that come after the last component of [s]. *)
Fixpoint remaining_units (us : list N) (s : pystr) : list N :=
  match us with
  | [] => []
  | u :: us' =>
      match take_component u s with
      | Some (_, rest) => remaining_units us' rest
      | None => if truthy_str s then remaining_units us' s else u :: us'
      end
  end.

Definition starts_component (u : N) (t : pystr) : bool :=
  match take_component u t with
  | Some _ => true
  | None => false
  end.

(** [t], put after the duration [s], begins with a component the pattern
    would still take. *)
Definition continues (s t : pystr) : bool :=
  existsb (fun u => starts_component u t) (remaining_units units s).

(** The four fields [format_time_interval] computes with [divmod]. *)
Definition days_of (n : Z) : Z := n `div` 86400.
Definition hours_of (n : Z) : Z := (n `mod` 86400) `div` 3600.
Definition minutes_of (n : Z) : Z := ((n `mod` 86400) `mod` 3600) `div` 60.
Definition seconds_of (n : Z) : Z := ((n `mod` 86400) `mod` 3600) `mod` 60.

(** The fields in the order they are written, each with its unit letter. *)
Definition fields (n : Z) : list (Z * N) :=
  [(days_of n, unit_d); (hours_of n, unit_h); (minutes_of n, unit_m);
   (seconds_of n, unit_s)].

Definition render (f : Z * N) : pystr := txt (pretty (fst f)) ++ [snd f].

Definition nonzero_components (n : Z) : list (Z * N) :=
  List.filter (fun f => negb (fst f =? 0)) (fields n).

Definition join (l : list pystr) : pystr := List.concat l.

(** An optional component given by its digits: its text and its value. *)
Definition component_of (u : N) (o : option pystr) : pystr :=
  match o with
  | Some ds => ds ++ [u]
  | None => []
  end.

Definition component_value (o : option pystr) : Z :=
  match o with
  | Some ds => number ds
  | None => 0
  end.

(** Digits [int] converts: a non-empty run of at most 4300 decimal digits. *)
Definition digits_ok (o : option pystr) : bool :=
  match o with
  | Some ds =>
      all_digits ds && truthy_str ds
      && (Z.of_nat (length ds) <=? max_str_digits)
  | None => true
  end.

Definition duration_text (d h m s : option pystr) : pystr :=
  component_of unit_d d ++ component_of unit_h h ++ component_of unit_m m
  ++ component_of unit_s s.

(** The digits [format_time_interval] writes for a field: none when the
    field is not positive, except that the seconds are written when nothing
    else is. *)
Definition written (x : Z) : option pystr :=
  if 0 <? x then Some (txt (pretty x)) else None.

Definition written_seconds (n : Z) : option pystr :=
  if (0 <? seconds_of n)
     || negb ((0 <? days_of n) || (0 <? hours_of n) || (0 <? minutes_of n))
  then Some (txt (pretty (seconds_of n)))
  else None.

(** * Properties of the codec *)

Section StringFacts.

Lemma truthy_append (a b : pystr) :
  truthy_str (a ++ b) = truthy_str a || truthy_str b.
Proof. destruct a; reflexivity. Qed.

Lemma or_else_None {R : Type} (a : option R) : or_else a None = a.
Proof. now destruct a. Qed.

Lemma length_txt (s : string) : length (txt s) = String.length s.
Proof. induction s as [|a s IH]; simpl; [reflexivity | now rewrite IH]. Qed.

End StringFacts.

Section Digits.

Lemma decimal_run_bounds (c b : N) :
  decimal_run c = Some b -> (b <= c < b + 10)%N.
Proof.
  unfold decimal_run. intros Hf. apply List.find_some in Hf as [_ Hb].
  apply andb_true_iff in Hb as [H1 H2].
  apply N.leb_le in H1. apply N.ltb_lt in H2. lia.
Qed.

Lemma digit_value_range (c : N) :
  is_digit c = true -> 0 <= digit_value c <= 9.
Proof.
  unfold is_digit, digit_value. destruct (decimal_run c) as [b|] eqn:Hb;
    [|discriminate].
  intros _. apply decimal_run_bounds in Hb. lia.
Qed.

Lemma span_digits_all (ds : pystr) (c : N) (rest : pystr) :
  all_digits ds = true -> is_digit c = false ->
  span_digits (ds ++ c :: rest) = (ds, c :: rest).
Proof.
  intros Hds Hc. induction ds as [|x ds IH]; simpl in *.
  - now rewrite Hc.
  - apply andb_true_iff in Hds as [Hx Hds]. now rewrite Hx, (IH Hds).
Qed.

Lemma span_digits_whole (ds : pystr) :
  all_digits ds = true -> span_digits ds = (ds, []).
Proof.
  induction ds as [|x ds IH]; simpl; [reflexivity|].
  intros [Hx Hds]%andb_true_iff. now rewrite Hx, (IH Hds).
Qed.

Lemma span_digits_split (s : pystr) :
  fst (span_digits s) ++ snd (span_digits s) = s
  /\ all_digits (fst (span_digits s)) = true.
Proof.
  induction s as [|c s [IH1 IH2]]; simpl; [easy|].
  destruct (is_digit c) eqn:Hc; [|easy].
  destruct (span_digits s) as [ds r]; simpl in *.
  rewrite IH1, Hc, IH2. easy.
Qed.

Lemma span_digits_rest (s : pystr) (c : N) (r : pystr) :
  snd (span_digits s) = c :: r -> is_digit c = false.
Proof.
  induction s as [|x s IH]; simpl; [discriminate|].
  destruct (is_digit x) eqn:Hx.
  - destruct (span_digits s) as [ds r']; simpl in *. exact IH.
  - simpl. now intros [= -> _].
Qed.

Lemma take_component_nil (u : N) : take_component u [] = None.
Proof. reflexivity. Qed.

Lemma take_component_hit (u : N) (ds rest : pystr) :
  all_digits ds = true -> truthy_str ds = true -> is_digit u = false ->
  take_component u (ds ++ u :: rest) = Some (ds, rest).
Proof.
  intros Hds Hne Hu. unfold take_component.
  rewrite (span_digits_all _ _ _ Hds Hu).
  destruct ds; [discriminate|]. now rewrite N.eqb_refl.
Qed.

Lemma take_component_miss (u v : N) (ds rest : pystr) :
  all_digits ds = true -> is_digit v = false -> u <> v ->
  take_component u (ds ++ v :: rest) = None.
Proof.
  intros Hds Hv Huv. unfold take_component.
  rewrite (span_digits_all _ _ _ Hds Hv).
  destruct ds; [reflexivity|].
  destruct (N.eqb_spec u v); [contradiction | reflexivity].
Qed.

Lemma take_component_digits (u : N) (ds : pystr) :
  all_digits ds = true -> take_component u ds = None.
Proof.
  intros Hds. unfold take_component. rewrite (span_digits_whole _ Hds).
  now destruct ds.
Qed.

(** What a successful [take_component] says about its input. *)
Lemma take_component_Some (u : N) (s ds rest : pystr) :
  take_component u s = Some (ds, rest) ->
  s = ds ++ u :: rest /\ all_digits ds = true /\ truthy_str ds = true.
Proof.
  unfold take_component. intros Hs.
  destruct (span_digits_split s) as [Hsplit Hall].
  destruct (span_digits s) as [[|c ds'] [|c' r]]; try discriminate.
  destruct (N.eqb_spec u c'); [|discriminate].
  injection Hs as <- <-. subst c'. simpl in *. now rewrite Hsplit.
Qed.

End Digits.

Section Regex.

Context {R : Type}.

(** A greedy run of digits gives nothing back when the continuation
    refuses every input that starts with a digit. *)
Lemma star_digits_span (s acc : pystr) (k : pystr -> pystr -> option R) :
  (forall m c r, is_digit c = true -> k m (c :: r) = None) ->
  star_digits acc s k
  = k (acc ++ fst (span_digits s)) (snd (span_digits s)).
Proof.
  intros Hk. revert acc. induction s as [|c s IH]; intros acc; simpl.
  - now rewrite app_nil_r.
  - destruct (is_digit c) eqn:Hc.
    + rewrite (Hk acc c s Hc), or_else_None, IH.
      destruct (span_digits s) as [ds r]; simpl.
      now rewrite <- app_assoc.
    + simpl. now rewrite app_nil_r.
Qed.

(** One optional component: take it when it is there and the rest of the
    pattern goes through, else go on without it. *)
Lemma rmatch_component (i : nat) (u : N) (s : pystr) (g : groups)
    (k : pystr -> pystr -> groups -> option R) :
  is_digit u = false ->
  rmatch (component i u) s g k
  = match take_component u s with
    | Some (ds, rest) =>
        or_else (k (ds ++ [u]) rest (<[Nat.pred i := Some ds]> g))
                (k [] s g)
    | None => k [] s g
    end.
Proof.
  intros Hu. unfold component, take_component. simpl.
  destruct s as [|c s]; [reflexivity|]. simpl.
  destruct (is_digit c) eqn:Hc; [|reflexivity].
  rewrite star_digits_span.
  - destruct (span_digits s) as [ds r]; simpl.
    destruct r as [|c' r]; [reflexivity|].
    destruct (u =? c')%N; reflexivity.
  - intros m c' r Hc'.
    destruct (N.eqb_spec u c'); [congruence | reflexivity].
Qed.

Lemma rmatch_component_total (i : nat) (u : N) (s : pystr) (g : groups)
    (k : pystr -> pystr -> groups -> option R) :
  is_digit u = false ->
  (forall m s' g', is_Some (k m s' g')) ->
  rmatch (component i u) s g k
  = let '(m, s', g') := step i u s g in k m s' g'.
Proof.
  intros Hu Hk. rewrite rmatch_component by exact Hu. unfold step.
  destruct (take_component u s) as [[ds rest]|]; [|reflexivity].
  now destruct (Hk (ds ++ [u]) rest (<[Nat.pred i := Some ds]> g))
    as [x ->].
Qed.

Lemma rmatch_component_is_Some (i : nat) (u : N) (s : pystr)
    (g : groups) (k : pystr -> pystr -> groups -> option R) :
  is_digit u = false ->
  (forall m s' g', is_Some (k m s' g')) ->
  is_Some (rmatch (component i u) s g k).
Proof.
  intros Hu Hk. rewrite rmatch_component_total by assumption.
  destruct (step i u s g) as [[m s'] g']. apply Hk.
Qed.

End Regex.

(** Discharges "the rest of the pattern always matches". *)
Ltac rest_matches :=
  repeat (intros; cbn [rmatch];
          first [ now eauto
                | apply rmatch_component_is_Some; [reflexivity|] ]).

(** [re.match] on the source's pattern never fails and computes [scan]. *)
Lemma re_match_pattern (s : pystr) : re_match pattern s = Some (scan s).
Proof.
  unfold re_match, pattern, scan.
  change (group_count _) with 4%nat.
  cbn [rmatch].
  rewrite rmatch_component_total; [|reflexivity|rest_matches].
  destruct (step 1 unit_d s _) as [[m1 s1] g1].
  rewrite rmatch_component_total; [|reflexivity|rest_matches].
  destruct (step 2 unit_h s1 g1) as [[m2 s2] g2].
  rewrite rmatch_component_total; [|reflexivity|rest_matches].
  destruct (step 3 unit_m s2 g2) as [[m3 s3] g3].
  rewrite rmatch_component_total; [|reflexivity|rest_matches].
  destruct (step 4 unit_s s3 g3) as [[? ?] ?]. reflexivity.
Qed.



Example re_match_prefix :
  re_match pattern (txt "1d2h3m4s and more")
  = Some (MatchObj (txt "1d2h3m4s") (txt " and more")
                   [Some (txt "1"); Some (txt "2"); Some (txt "3");
                    Some (txt "4")]).
Proof. reflexivity. Qed.

(** Digits with no unit letter after them are given back. *)
Example re_match_gives_back :
  re_match pattern (txt "1d30")
  = Some (MatchObj (txt "1d") (txt "30") [Some (txt "1"); None; None; None]).
Proof. reflexivity. Qed.

(** Units out of order end the match. *)
Example re_match_out_of_order :
  re_match pattern (txt "5m2h")
  = Some (MatchObj (txt "5m") (txt "2h") [None; None; Some (txt "5"); None]).
Proof. reflexivity. Qed.

(** Decimal digits beyond ASCII count: ARABIC-INDIC DIGIT TWO, then [h]. *)
Example re_match_arabic_indic :
  parse_time_interval (txt "1d" ++ [1634%N] ++ txt "h") = inr 93600.
Proof. reflexivity. Qed.

Lemma scan_scan_units (s : pystr) :
  m_groups (scan s) = fst (scan_units units s)
  /\ m_rest (scan s) = snd (scan_units units s).
Proof.
  unfold scan, step, units; simpl.
  repeat match goal with
         | |- context [take_component ?u ?r] =>
             destruct (take_component u r) as [[? ?]|]; simpl
         end;
    split; reflexivity.
Qed.

(** [parse_time_interval] through the left-to-right reading. *)
Lemma parse_time_interval_scan (s : pystr) :
  truthy_str s = true ->
  parse_time_interval s
  = if py_any (fst (scan_units units s))
    then total_seconds (fst (scan_units units s))
    else inl (invalid_format s).
Proof.
  intros Hs. unfold parse_time_interval. rewrite Hs, re_match_pattern. simpl.
  unfold m_group. destruct (scan_scan_units s) as [-> _].
  destruct (py_any _); reflexivity.
Qed.

Section Decimal.

Lemma is_digit_pretty_N_char (x : N) :
  is_digit (N_of_ascii (pretty_N_char x)) = true.
Proof. unfold pretty_N_char. repeat case_match; reflexivity. Qed.

Lemma digit_value_pretty_N_char (x : N) :
  (x < 10)%N -> digit_value (N_of_ascii (pretty_N_char x)) = Z.of_N x.
Proof.
  intros Hx.
  assert (x = 0 \/ x = 1 \/ x = 2 \/ x = 3 \/ x = 4 \/ x = 5 \/ x = 6
          \/ x = 7 \/ x = 8 \/ x = 9)%N as Hc by lia.
  repeat (destruct Hc as [->|Hc]; [reflexivity|]). now subst.
Qed.

(** Reading back what [pretty_N_go] writes in front of [s]. *)
Lemma number_from_pretty_N_go (x : N) (s : string) :
  number_from 0 (txt (pretty_N_go x s)) = number_from (Z.of_N x) (txt s).
Proof.
  revert s. induction (N.lt_wf_0 x) as [x _ IH]; intros s.
  destruct (decide (x = 0)%N) as [->|Hx]; [reflexivity|].
  rewrite pretty_N_go_step by lia.
  rewrite IH by (apply N.div_lt; lia). simpl.
  rewrite digit_value_pretty_N_char by (apply N.mod_lt; lia).
  f_equal. rewrite (N.div_mod x 10) at 3 by lia. lia.
Qed.

Lemma all_digits_pretty_N_go (x : N) (s : string) :
  all_digits (txt s) = true -> all_digits (txt (pretty_N_go x s)) = true.
Proof.
  revert s. induction (N.lt_wf_0 x) as [x _ IH]; intros s Hs.
  destruct (decide (x = 0)%N) as [->|Hx]; [exact Hs|].
  rewrite pretty_N_go_step by lia.
  apply IH; [apply N.div_lt; lia|]. simpl.
  now rewrite is_digit_pretty_N_char.
Qed.

Lemma truthy_pretty_N_go (x : N) (s : string) :
  truthy_str (txt s) = true -> truthy_str (txt (pretty_N_go x s)) = true.
Proof.
  revert s. induction (N.lt_wf_0 x) as [x _ IH]; intros s Hs.
  destruct (decide (x = 0)%N) as [->|Hx]; [exact Hs|].
  rewrite pretty_N_go_step by lia.
  apply IH; [apply N.div_lt; lia | reflexivity].
Qed.

(** A number below [10 ^ k] is written with at most [k] digits. *)
Lemma length_pretty_N_go_le (k : Z) :
  0 <= k ->
  forall (x : N) (s : string),
    Z.of_N x < 10 ^ k ->
    Z.of_nat (String.length (pretty_N_go x s))
    <= k + Z.of_nat (String.length s).
Proof.
  intros Hk. pattern k. apply natlike_ind; [| |exact Hk]; clear k Hk.
  - intros x s Hx. simpl in Hx.
    assert (x = 0%N) as -> by lia. rewrite pretty_N_go_0. lia.
  - intros k Hk IH x s Hx. rewrite Z.pow_succ_r in Hx by exact Hk.
    destruct (decide (x = 0)%N) as [->|Hnz];
      [rewrite pretty_N_go_0; lia|].
    rewrite pretty_N_go_step by lia.
    assert (Z.of_N (x `div` 10) < 10 ^ k) as Hdiv.
    { rewrite N2Z.inj_div. apply Z.div_lt_upper_bound; lia. }
    specialize (IH _ (String (pretty_N_char (x `mod` 10)) s) Hdiv).
    simpl String.length in IH. lia.
Qed.

Lemma length_pretty_N_go_mono (x : N) (s : string) :
  (String.length s <= String.length (pretty_N_go x s))%nat.
Proof.
  revert s. induction (N.lt_wf_0 x) as [x _ IH]; intros s.
  destruct (decide (x = 0)%N) as [->|Hx]; [rewrite pretty_N_go_0; lia|].
  rewrite pretty_N_go_step by lia.
  specialize (IH (x `div` 10)%N ltac:(apply N.div_lt; lia)
                (String (pretty_N_char (x `mod` 10)) s)).
  simpl String.length in IH. lia.
Qed.

(** A number from [10 ^ k] on is written with more than [k] digits. *)
Lemma length_pretty_N_go_gt (k : Z) :
  0 <= k ->
  forall (x : N) (s : string),
    10 ^ k <= Z.of_N x ->
    k + Z.of_nat (String.length s)
    < Z.of_nat (String.length (pretty_N_go x s)).
Proof.
  intros Hk. pattern k. apply natlike_ind; [| |exact Hk]; clear k Hk.
  - intros x s Hx. simpl in Hx. rewrite pretty_N_go_step by lia.
    pose proof (length_pretty_N_go_mono (x `div` 10)
                  (String (pretty_N_char (x `mod` 10)) s)) as Hm.
    simpl String.length in Hm. lia.
  - intros k Hk IH x s Hx. rewrite Z.pow_succ_r in Hx by exact Hk.
    assert (0 < 10 ^ k) by (apply Z.pow_pos_nonneg; lia).
    rewrite pretty_N_go_step by lia.
    assert (10 ^ k <= Z.of_N (x `div` 10)) as Hdiv.
    { rewrite N2Z.inj_div. apply Z.div_le_lower_bound; lia. }
    specialize (IH _ (String (pretty_N_char (x `mod` 10)) s) Hdiv).
    simpl String.length in IH. lia.
Qed.

Lemma pretty_Z_pos (n : Z) :
  0 < n -> pretty n = pretty_N_go (Z.to_N n) "".
Proof.
  intros Hn. destruct n as [|p|p]; try lia.
  change (pretty (Z.pos p)) with (pretty (N.pos p)).
  unfold pretty, pretty_N. now destruct (decide (N.pos p = 0%N)).
Qed.

(** [str] of a non-negative integer is a non-empty string of digits that
    denotes it. *)
Lemma pretty_Z_digits (n : Z) :
  0 <= n ->
  all_digits (txt (pretty n)) = true /\ truthy_str (txt (pretty n)) = true
  /\ number (txt (pretty n)) = n.
Proof.
  intros Hn. destruct (Z.eq_dec n 0) as [->|Hnz]; [easy|].
  rewrite pretty_Z_pos by lia.
  assert (Z.to_N n <> 0%N) as Hx by lia.
  split; [|split].
  - now apply all_digits_pretty_N_go.
  - rewrite pretty_N_go_step by lia. now apply truthy_pretty_N_go.
  - unfold number. rewrite number_from_pretty_N_go. simpl. lia.
Qed.

Lemma length_pretty_le (n k : Z) :
  1 <= k -> 0 <= n < 10 ^ k ->
  Z.of_nat (String.length (pretty n)) <= k.
Proof.
  intros Hk Hn. destruct (Z.eq_dec n 0) as [->|Hnz]; [simpl; lia|].
  rewrite pretty_Z_pos by lia.
  pose proof (length_pretty_N_go_le k ltac:(lia) (Z.to_N n) "") as Hle.
  rewrite Z2N.id in Hle by lia. specialize (Hle (proj2 Hn)).
  simpl String.length in Hle. lia.
Qed.

Lemma length_pretty_gt (n k : Z) :
  0 <= k -> 10 ^ k <= n ->
  k < Z.of_nat (String.length (pretty n)).
Proof.
  intros Hk Hn.
  assert (0 < 10 ^ k) by (apply Z.pow_pos_nonneg; lia).
  rewrite pretty_Z_pos by lia.
  pose proof (length_pretty_N_go_gt k Hk (Z.to_N n) "") as Hgt.
  rewrite Z2N.id in Hgt by lia. specialize (Hgt Hn).
  simpl String.length in Hgt. lia.
Qed.

Lemma int_str_bound_large : 86400 < int_str_bound.
Proof.
  unfold int_str_bound.
  apply Z.lt_le_trans with (10 ^ 5); [reflexivity|].
  apply Z.pow_le_mono_r; lia.
Qed.

(** [str] prints exactly the integers below [int_str_bound]. *)
Lemma py_str_ok (n : Z) :
  0 <= n < int_str_bound -> py_str n = inr (txt (pretty n)).
Proof.
  intros Hn. unfold py_str. rewrite Z.abs_eq by lia.
  pose proof (length_pretty_le n 4300 ltac:(lia) Hn) as Hle.
  unfold max_str_digits. destruct (Z.ltb_spec 4300
    (Z.of_nat (String.length (pretty n)))); [lia | reflexivity].
Qed.

Lemma py_str_refused (n : Z) :
  int_str_bound <= n -> py_str n = inl too_many_digits_for_str.
Proof.
  intros Hn. unfold py_str.
  assert (0 < int_str_bound) by (pose proof int_str_bound_large; lia).
  rewrite Z.abs_eq by lia.
  pose proof (length_pretty_gt n 4300 ltac:(lia) Hn) as Hgt.
  unfold max_str_digits. destruct (Z.ltb_spec 4300
    (Z.of_nat (String.length (pretty n)))); [reflexivity | lia].
Qed.

(** [int] on digits within the limit. *)
Lemma py_int_digits (ds : pystr) :
  all_digits ds = true -> truthy_str ds = true ->
  py_int ds
  = if Z.of_nat (length ds) <=? max_str_digits then inr (number ds)
    else inl (too_many_digits_for_int (length ds)).
Proof.
  intros Hall Hne. unfold py_int. rewrite Hall, Hne. simpl.
  destruct (Z.ltb_spec max_str_digits (Z.of_nat (length ds))),
    (Z.leb_spec (Z.of_nat (length ds)) max_str_digits);
    try lia; reflexivity.
Qed.

Lemma int_or_0_pretty (n : Z) :
  0 <= n < int_str_bound -> int_or_0 (Some (txt (pretty n))) = inr n.
Proof.
  intros Hn. destruct (pretty_Z_digits n (proj1 Hn)) as (Hall & Hne & Hnum).
  unfold int_or_0. rewrite Hne, (py_int_digits _ Hall Hne), length_txt.
  pose proof (length_pretty_le n 4300 ltac:(lia) Hn) as Hle.
  unfold max_str_digits.
  destruct (Z.leb_spec (Z.of_nat (String.length (pretty n))) 4300);
    [now rewrite Hnum | lia].
Qed.

Lemma number_from_nonneg (ds : pystr) (acc : Z) :
  all_digits ds = true -> 0 <= acc -> 0 <= number_from acc ds.
Proof.
  revert acc. induction ds as [|c ds IH]; intros acc; simpl; [easy|].
  intros [Hc Hds]%andb_true_iff Hacc. apply IH; [exact Hds|].
  pose proof (digit_value_range c Hc). lia.
Qed.

End Decimal.

Lemma fields_range (n : Z) :
  0 <= n ->
  0 <= days_of n /\ 0 <= hours_of n < 24 /\ 0 <= minutes_of n < 60
  /\ 0 <= seconds_of n < 60
  /\ n = days_of n * 86400 + hours_of n * 3600 + minutes_of n * 60
         + seconds_of n.
Proof.
  intros Hn. unfold days_of, hours_of, minutes_of, seconds_of.
  pose proof (Z.div_mod n 86400 ltac:(lia)).
  pose proof (Z.mod_pos_bound n 86400 ltac:(lia)).
  pose proof (Z.div_mod (n `mod` 86400) 3600 ltac:(lia)).
  pose proof (Z.mod_pos_bound (n `mod` 86400) 3600 ltac:(lia)).
  pose proof (Z.div_mod ((n `mod` 86400) `mod` 3600) 60 ltac:(lia)).
  pose proof (Z.mod_pos_bound ((n `mod` 86400) `mod` 3600) 60 ltac:(lia)).
  pose proof (Z.div_pos n 86400 Hn ltac:(lia)).
  pose proof (Z.div_pos (n `mod` 86400) 3600 ltac:(lia) ltac:(lia)).
  pose proof (Z.div_pos ((n `mod` 86400) `mod` 3600) 60 ltac:(lia)
                ltac:(lia)).
  lia.
Qed.

Ltac side :=
  solve [ assumption | reflexivity | discriminate ].

Ltac run_scan :=
  cbn [scan_units units];
  repeat (first [ rewrite take_component_hit by side
                | rewrite take_component_miss by side
                | rewrite take_component_nil ];
          cbn [scan_units]).

Section FormatFacts.

Lemma days_below_bound (n : Z) :
  n < 86400 * int_str_bound -> days_of n < int_str_bound.
Proof. intros Hn. unfold days_of. apply Z.div_lt_upper_bound; lia. Qed.

Lemma days_reach_bound (n : Z) :
  86400 * int_str_bound <= n -> int_str_bound <= days_of n.
Proof. intros Hn. unfold days_of. apply Z.div_le_lower_bound; lia. Qed.

Lemma int_or_0_digits (o : option pystr) :
  digits_ok o = true -> int_or_0 o = inr (component_value o).
Proof.
  destruct o as [ds|]; [|reflexivity]. simpl.
  intros [[Hall Hne]%andb_true_iff Hlen]%andb_true_iff.
  now rewrite Hne, (py_int_digits _ Hall Hne), Hlen.
Qed.

Lemma component_value_nonneg (o : option pystr) :
  match o with
  | Some ds => all_digits ds = true
  | None => True
  end -> 0 <= component_value o.
Proof.
  destruct o as [ds|]; [|easy]. simpl. intros Hall.
  now apply number_from_nonneg.
Qed.

Lemma digits_ok_pretty (x : Z) :
  0 <= x < int_str_bound -> digits_ok (Some (txt (pretty x))) = true.
Proof.
  intros Hx. destruct (pretty_Z_digits x (proj1 Hx)) as (Hall & Hne & _).
  simpl. rewrite Hall, Hne, length_txt. simpl.
  apply Z.leb_le. exact (length_pretty_le x 4300 ltac:(lia) Hx).
Qed.

Lemma written_ok (x : Z) :
  0 <= x < int_str_bound ->
  digits_ok (written x) = true /\ component_value (written x) = x.
Proof.
  intros Hx. unfold written. destruct (Z.ltb_spec 0 x).
  - split; [now apply digits_ok_pretty|].
    apply (pretty_Z_digits x (proj1 Hx)).
  - split; [reflexivity | simpl; lia].
Qed.

Lemma written_seconds_ok (n : Z) :
  0 <= n ->
  digits_ok (written_seconds n) = true
  /\ component_value (written_seconds n) = seconds_of n.
Proof.
  intros Hn. destruct (fields_range n Hn) as (_ & _ & _ & Hs & _).
  pose proof int_str_bound_large as Hb.
  assert (digits_ok (Some (txt (pretty (seconds_of n)))) = true
          /\ number (txt (pretty (seconds_of n))) = seconds_of n) as [Ho Hv].
  { split; [apply digits_ok_pretty; lia|].
    apply (pretty_Z_digits _ (proj1 Hs)). }
  unfold written_seconds. destruct (Z.ltb_spec 0 (seconds_of n)); simpl.
  - now split.
  - destruct (negb _); [now split|]. split; [reflexivity | simpl; lia].
Qed.

(** The output of [format_time_interval], component by component, while the
    days can be printed. *)
Lemma format_duration_text (n : Z) :
  0 <= n -> days_of n < int_str_bound ->
  format_time_interval n
  = inr (duration_text (written (days_of n)) (written (hours_of n))
                       (written (minutes_of n)) (written_seconds n)).
Proof.
  intros Hn Hdays. destruct (fields_range n Hn) as (Hd & Hh & Hm & Hs & _).
  pose proof int_str_bound_large as Hb.
  unfold format_time_interval, divmod, duration_text, written,
    written_seconds, add_field.
  fold (days_of n) (hours_of n) (minutes_of n) (seconds_of n).
  rewrite (py_str_ok (days_of n)), (py_str_ok (hours_of n)),
    (py_str_ok (minutes_of n)), (py_str_ok (seconds_of n)) by lia.
  destruct (pretty_Z_digits (days_of n) Hd) as (_ & Td & _).
  destruct (pretty_Z_digits (hours_of n) (proj1 Hh)) as (_ & Th & _).
  destruct (pretty_Z_digits (minutes_of n) (proj1 Hm)) as (_ & Tm & _).
  destruct (0 <? days_of n); destruct (0 <? hours_of n);
    destruct (0 <? minutes_of n); destruct (0 <? seconds_of n);
    cbn [ebind app]; rewrite ?truthy_append, ?Td, ?Th, ?Tm;
    cbn [orb negb truthy_str component_of ebind app];
    rewrite <- ?app_assoc, ?app_nil_r; reflexivity.
Qed.

(** From [86400 * 10 ** 4300] seconds on, the day count cannot be printed. *)
Lemma format_time_interval_refused (n : Z) :
  86400 * int_str_bound <= n ->
  format_time_interval n = inl too_many_digits_for_str.
Proof.
  intros Hn. pose proof (days_reach_bound n Hn) as Hd.
  pose proof int_str_bound_large as Hb.
  unfold format_time_interval, divmod, add_field.
  fold (days_of n). rewrite (py_str_refused _ Hd).
  destruct (Z.ltb_spec 0 (days_of n)); [reflexivity | lia].
Qed.

Ltac split_digits_ok :=
  repeat match goal with
         | H : digits_ok (Some _) = true |- _ =>
             simpl in H;
             apply andb_true_iff in H as [[? ?]%andb_true_iff ?]
         | H : digits_ok None = true |- _ => clear H
         end.

(** Parsing a string put together from optional components. *)
Lemma parse_duration_text (d h m s : option pystr) :
  digits_ok d = true -> digits_ok h = true -> digits_ok m = true ->
  digits_ok s = true ->
  parse_time_interval (duration_text d h m s)
  = inr (component_value d * 86400 + component_value h * 3600
         + component_value m * 60 + component_value s)
  /\ compact_duration (duration_text d h m s) = true.
Proof.
  intros Hd Hh Hm Hs.
  pose proof (int_or_0_digits d Hd) as Id.
  pose proof (int_or_0_digits h Hh) as Ih.
  pose proof (int_or_0_digits m Hm) as Im.
  pose proof (int_or_0_digits s Hs) as Is.
  unfold duration_text, compact_duration.
  destruct d as [d|], h as [h|], m as [m|], s as [s|]; split_digits_ok;
    cbn [component_of app];
    rewrite <- ?app_assoc, ?app_nil_r; cbn [app];
    try (split; reflexivity);
    (rewrite parse_time_interval_scan
       by (rewrite truthy_append; match goal with
                                  | H : truthy_str _ = true |- _ => now rewrite H
                                  end));
    run_scan; unfold py_any; cbn [fst snd existsb truthy_group];
    repeat match goal with
           | H : truthy_str _ = true |- _ => rewrite H; clear H
           end;
    cbn [orb]; unfold total_seconds;
    cbn [lookup list_lookup default from_option id];
    rewrite ?Id, ?Ih, ?Im, ?Is; cbn [ebind int_or_0 component_value];
    (split; [f_equal; lia | reflexivity]).
Qed.

(** Parsing what was formatted: all of it is used, and it means [n]. *)
Lemma parse_format_value (n : Z) :
  0 <= n < 86400 * int_str_bound ->
  exists s,
    format_time_interval n = inr s
    /\ parse_time_interval s = inr n
    /\ compact_duration s = true.
Proof.
  intros [Hn Hbound].
  destruct (fields_range n Hn) as (Hd & Hh & Hm & Hs & Hsum).
  pose proof (days_below_bound n Hbound) as Hdays.
  pose proof int_str_bound_large as Hb.
  destruct (written_ok (days_of n) ltac:(lia)) as [Od Vd].
  destruct (written_ok (hours_of n) ltac:(lia)) as [Oh Vh].
  destruct (written_ok (minutes_of n) ltac:(lia)) as [Om Vm].
  destruct (written_seconds_ok n Hn) as [Os Vs].
  eexists. split; [apply (format_duration_text n Hn Hdays)|].
  destruct (parse_duration_text _ _ _ _ Od Oh Om Os) as [Hparse Hcompact].
  split; [|exact Hcompact].
  rewrite Hparse, Vd, Vh, Vm, Vs. f_equal. lia.
Qed.

(** Whatever is formatted is not empty. *)
Lemma format_time_interval_nonempty (n : Z) (s : pystr) :
  format_time_interval n = inr s -> truthy_str s = true.
Proof.
  unfold format_time_interval, divmod, add_field.
  fold (days_of n) (hours_of n) (minutes_of n) (seconds_of n).
  set (r1 := if 0 <? days_of n then _ else _).
  destruct r1 as [e|r1]; [discriminate|]. cbn [ebind].
  set (r2 := if 0 <? hours_of n then _ else _).
  destruct r2 as [e|r2]; [discriminate|]. cbn [ebind].
  set (r3 := if 0 <? minutes_of n then _ else _).
  destruct r3 as [e|r3]; [discriminate|]. cbn [ebind].
  destruct (truthy_str r3) eqn:H3.
  - destruct (_ || _).
    + destruct (py_str (seconds_of n)); [discriminate|]. cbn [ebind].
      intros [= <-]. now rewrite truthy_append, H3.
    + cbn [ebind]. now intros [= <-].
  - rewrite orb_true_r.
    destruct (py_str (seconds_of n)) as [e|ds]; [discriminate|].
    cbn [ebind]. intros [= <-].
    rewrite !truthy_append. cbn. now rewrite !orb_true_r.
Qed.

End FormatFacts.

(** C1, as stated, fails from [86400 * 10 ** 4300] seconds on: the day
    count then has more than 4300 digits, the f-string that prints it raises
    [ValueError], and there is no string to parse. *)
Lemma format_refuses_huge_day_counts :
  ~ (forall n : Z,
        0 <= n ->
        exists s, format_time_interval n = inr s
                  /\ parse_time_interval s = inr n).
Proof.
  intros Hclaim.
  pose proof int_str_bound_large as Hb.
  destruct (Hclaim (86400 * int_str_bound) ltac:(lia)) as (s & Hs & _).
  rewrite format_time_interval_refused in Hs by lia. discriminate Hs.
Qed.

(** C1, amended.  Round trip: for every integer [n] with
    [0 <= n < 86400 * 10 ** 4300], [format_time_interval n] returns a string
    and [parse_time_interval] of that string returns [n]. *)
Theorem parse_format_roundtrip (n : Z) :
  0 <= n < 86400 * int_str_bound ->
  exists s, format_time_interval n = inr s
            /\ parse_time_interval s = inr n.
Proof.
  intros Hn. destruct (parse_format_value n Hn) as (s & Hf & Hp & _).
  exists s. now split.
Qed.

Lemma parse_format_roundtrip_witness :
  exists s, format_time_interval 90061 = inr s
            /\ parse_time_interval s = inr 90061.
Proof.
  apply (parse_format_roundtrip 90061).
  pose proof int_str_bound_large. lia.
Defined.

(** C9. The stated values of [parse_time_interval]: the empty string gives
    0 without failing, ["garbage"] raises the invalid-format [ValueError],
    and ["1d2h3m4s"] gives 93784. *)
Theorem parse_time_interval_examples :
  parse_time_interval (txt "") = inr 0
  /\ parse_time_interval (txt "garbage")
     = inl (invalid_format (txt "garbage"))
  /\ parse_time_interval (txt "1d2h3m4s") = inr 93784.
Proof. repeat split; vm_compute; reflexivity. Qed.

(** C10, as stated, fails from [86400 * 10 ** 4300] seconds on: nothing is
    emitted, the f-string that prints the day count raises [ValueError]. *)
Lemma format_emits_nothing_for_huge_day_counts :
  ~ (forall n : Z,
        0 <= n ->
        exists s, format_time_interval n = inr s /\ truthy_str s = true).
Proof.
  intros Hclaim.
  pose proof int_str_bound_large as Hb.
  destruct (Hclaim (86400 * int_str_bound + 90) ltac:(lia)) as (s & Hs & _).
  rewrite format_time_interval_refused in Hs by lia. discriminate Hs.
Qed.

(** C10, amended.  For every number of seconds [n] with
    [0 <= n < 86400 * 10 ** 4300] the output is the non-zero fields among
    days, hours, minutes and seconds, in that order, each followed by its
    unit letter; zero is written ["0s"]; the output is never empty; and the
    three stated examples hold. *)
Theorem format_time_interval_components (n : Z) :
  0 <= n < 86400 * int_str_bound ->
  format_time_interval n
  = inr (if n =? 0 then txt "0s"
         else join (map render (nonzero_components n)))
  /\ (forall s, format_time_interval n = inr s -> truthy_str s = true)
  /\ format_time_interval 0 = inr (txt "0s")
  /\ format_time_interval 90 = inr (txt "1m30s")
  /\ format_time_interval 90061 = inr (txt "1d1h1m1s").
Proof.
  intros [Hn Hbound].
  split; [|split; [apply format_time_interval_nonempty|]].
  2:{ repeat split; vm_compute; reflexivity. }
  destruct (fields_range n Hn) as (Hd & Hh & Hm & Hs & Hsum).
  rewrite (format_duration_text n Hn (days_below_bound n Hbound)).
  assert (forall x, 0 <= x -> negb (x =? 0) = (0 <? x)) as Hnz.
  { intros x Hx. destruct (Z.eqb_spec x 0), (Z.ltb_spec 0 x); simpl; lia. }
  unfold nonzero_components, fields. cbn [List.filter fst].
  rewrite (Hnz _ Hd), (Hnz _ (proj1 Hh)), (Hnz _ (proj1 Hm)),
    (Hnz _ (proj1 Hs)).
  unfold duration_text, written, written_seconds. f_equal.
  destruct (Z.eqb_spec n 0) as [Hz|Hz];
    destruct (Z.ltb_spec 0 (days_of n)); destruct (Z.ltb_spec 0 (hours_of n));
    destruct (Z.ltb_spec 0 (minutes_of n));
    destruct (Z.ltb_spec 0 (seconds_of n));
    try lia;
    cbn [orb negb map join concat component_of app]; unfold render;
    cbn [fst snd]; rewrite <- ?app_assoc, ?app_nil_r; try reflexivity.
  replace (seconds_of n) with 0 by lia. reflexivity.
Qed.

Lemma format_time_interval_components_witness :
  format_time_interval 3661 = inr (txt "1h1m1s").
Proof.
  destruct (format_time_interval_components 3661) as [Hout _];
    [pose proof int_str_bound_large; lia | exact Hout].
Defined.

(** ** Input after a duration *)

Section Trailing.

Lemma span_digits_append (s t : pystr) (c : N) (r : pystr) :
  snd (span_digits s) = c :: r ->
  span_digits (s ++ t) = (fst (span_digits s), (c :: r) ++ t).
Proof.
  intros Hr.
  pose proof (span_digits_rest s c r Hr) as Hc.
  destruct (span_digits_split s) as [Hs Hall].
  rewrite <- Hs at 1. rewrite Hr, <- app_assoc.
  now apply span_digits_all.
Qed.

Lemma take_component_append (u : N) (s t ds rest : pystr) :
  take_component u s = Some (ds, rest) ->
  take_component u (s ++ t) = Some (ds, rest ++ t).
Proof.
  unfold take_component. intros Hs.
  destruct (span_digits s) as [d r] eqn:Hsp.
  destruct d as [|c d]; [discriminate|].
  destruct r as [|c' r]; [discriminate|].
  rewrite (span_digits_append s t c' r) by now rewrite Hsp.
  rewrite Hsp. simpl.
  destruct (u =? c')%N; [|discriminate]. now injection Hs as <- <-.
Qed.

Lemma take_component_append_None (u : N) (s t : pystr) :
  take_component u s = None -> all_digits s = false ->
  take_component u (s ++ t) = None.
Proof.
  unfold take_component. intros Hs Hnd.
  destruct (span_digits s) as [d r] eqn:Hsp.
  destruct r as [|c' r].
  - destruct (span_digits_split s) as [Hsplit Hall].
    rewrite Hsp in Hsplit, Hall. simpl in Hsplit, Hall.
    rewrite app_nil_r in Hsplit. congruence.
  - rewrite (span_digits_append s t c' r) by now rewrite Hsp.
    rewrite Hsp. simpl.
    destruct d as [|c d]; [reflexivity|].
    now destruct (u =? c')%N.
Qed.

Lemma scan_units_nil (us : list N) :
  scan_units us [] = (replicate (length us) None, []).
Proof.
  induction us as [|u us IH]; [reflexivity|].
  simpl. now rewrite IH.
Qed.

Lemma scan_units_digits (us : list N) (s : pystr) :
  all_digits s = true -> snd (scan_units us s) = s.
Proof.
  intros Hs. induction us as [|u us IH]; [reflexivity|].
  simpl. rewrite (take_component_digits u s Hs).
  now destruct (scan_units us s).
Qed.

Lemma remaining_units_nil (us : list N) : remaining_units us [] = us.
Proof. now destruct us. Qed.

(** Scanning [s ++ t] goes as scanning [s] when [s] is used up and [t]
    does not begin with a component of a unit still to be tried. *)
Lemma scan_units_append (us : list N) (s t : pystr) :
  snd (scan_units us s) = [] ->
  (forall u, In u (remaining_units us s) -> take_component u t = None) ->
  scan_units us (s ++ t) = (fst (scan_units us s), t).
Proof.
  revert s. induction us as [|u us IH]; intros s Hrest Ht.
  - simpl in *. now subst s.
  - simpl in *. destruct (take_component u s) as [[ds rest]|] eqn:Hu.
    + rewrite (take_component_append _ _ t _ _ Hu).
      destruct (scan_units us rest) as [g r] eqn:Hsc. simpl in *.
      rewrite (IH rest); rewrite ?Hsc; auto.
    + destruct s as [|c s0].
      * simpl in Ht. simpl app.
        rewrite (Ht u (or_introl eq_refl)).
        specialize (IH []). simpl app in IH.
        rewrite scan_units_nil in *. simpl in *.
        rewrite IH; auto. rewrite remaining_units_nil. auto.
      * simpl in Ht.
        destruct (all_digits (c :: s0)) eqn:Hall.
        -- pose proof (scan_units_digits us _ Hall) as Hs.
           destruct (scan_units us (c :: s0)); simpl in *. congruence.
        -- rewrite (take_component_append_None _ _ t Hu Hall).
           specialize (IH (c :: s0)).
           destruct (scan_units us (c :: s0)) as [g r] eqn:Hsc.
           simpl in Hrest. rewrite IH; auto.
Qed.

(** Captures are non-empty runs of digits. *)
Lemma scan_units_captures (us : list N) (s ds : pystr) :
  In (Some ds) (fst (scan_units us s)) ->
  all_digits ds = true /\ truthy_str ds = true.
Proof.
  revert s. induction us as [|u us IH]; intros s; simpl; [easy|].
  destruct (take_component u s) as [[d rest]|] eqn:Hu.
  - destruct (scan_units us rest) as [g r] eqn:Hsc. simpl.
    intros [[= ->]|Hin].
    + now apply take_component_Some in Hu.
    + apply (IH rest). now rewrite Hsc.
  - destruct (scan_units us s) as [g r] eqn:Hsc. simpl.
    intros [[=]|Hin]. apply (IH s). now rewrite Hsc.
Qed.

Lemma scan_units_no_capture (us : list N) (s : pystr) :
  py_any (fst (scan_units us s)) = false -> snd (scan_units us s) = s.
Proof.
  revert s. induction us as [|u us IH]; intros s; simpl; [easy|].
  destruct (take_component u s) as [[d rest]|] eqn:Hu.
  - destruct (scan_units us rest) as [g r]. simpl.
    apply take_component_Some in Hu as (_ & _ & ->). discriminate.
  - specialize (IH s). destruct (scan_units us s) as [g r]. simpl in *.
    exact IH.
Qed.

Lemma scan_units_length (us : list N) (s : pystr) :
  length (fst (scan_units us s)) = length us.
Proof.
  revert s. induction us as [|u us IH]; intros s; simpl; [easy|].
  destruct (take_component u s) as [[d rest]|].
  - specialize (IH rest). destruct (scan_units us rest). simpl in *. lia.
  - specialize (IH s). destruct (scan_units us s). simpl in *. lia.
Qed.

(** [int(g or 0)] on a capture: its value, or the digit-limit error. *)
Lemma int_or_0_capture (o : option pystr) :
  (forall ds, o = Some ds -> all_digits ds = true /\ truthy_str ds = true) ->
  0 <= component_value o
  /\ int_or_0 o
     = if short_enough o then inr (component_value o)
       else inl (too_many_digits_for_int (length (default [] o))).
Proof.
  intros Ho. destruct o as [ds|]; [|now split].
  destruct (Ho ds eq_refl) as [Hall Hne]. split.
  - now apply number_from_nonneg.
  - simpl. now rewrite Hne, (py_int_digits _ Hall Hne).
Qed.

(** What lines 57-62 give on the captures of a scan: a non-negative total,
    or the error of the first capture with more than 4300 digits. *)
Lemma total_seconds_outcome (s : pystr) :
  (exists n, total_seconds (fst (scan_units units s)) = inr n /\ 0 <= n)
  \/ (exists digits,
        max_str_digits < Z.of_nat digits
        /\ total_seconds (fst (scan_units units s))
           = inl (too_many_digits_for_int digits)).
Proof.
  pose proof (scan_units_captures units s) as Hc.
  pose proof (scan_units_length units s) as Hl.
  destruct (fst (scan_units units s)) as [|o1 [|o2 [|o3 [|o4 [|? ?]]]]];
    try discriminate.
  unfold total_seconds. cbn [lookup list_lookup default from_option id].
  destruct (int_or_0_capture o1) as [P1 ->];
    [intros; apply Hc; subst; simpl; auto|].
  destruct (int_or_0_capture o2) as [P2 ->];
    [intros; apply Hc; subst; simpl; auto|].
  destruct (int_or_0_capture o3) as [P3 ->];
    [intros; apply Hc; subst; simpl; auto|].
  destruct (int_or_0_capture o4) as [P4 ->];
    [intros; apply Hc; subst; simpl; auto|].
  assert (forall o, short_enough o = false ->
                    max_str_digits < Z.of_nat (length (default [] o)))
    as Hlong.
  { intros [ds|]; simpl; [|discriminate]. intros Hf.
    now apply Z.leb_gt in Hf. }
  destruct (short_enough o1) eqn:S1; cbn [ebind]; [|right; eauto].
  destruct (short_enough o2) eqn:S2; cbn [ebind]; [|right; eauto].
  destruct (short_enough o3) eqn:S3; cbn [ebind]; [|right; eauto].
  destruct (short_enough o4) eqn:S4; cbn [ebind]; [|right; eauto].
  left. eexists. split; [reflexivity | lia].
Qed.

Lemma total_seconds_within_limit (s : pystr) :
  within_digit_limit s = true ->
  exists n, total_seconds (fst (scan_units units s)) = inr n /\ 0 <= n.
Proof.
  unfold within_digit_limit. intros Hw.
  pose proof (scan_units_captures units s) as Hc.
  pose proof (scan_units_length units s) as Hl.
  destruct (fst (scan_units units s)) as [|o1 [|o2 [|o3 [|o4 [|? ?]]]]];
    try discriminate.
  simpl in Hw.
  apply andb_true_iff in Hw as [S1 Hw]. apply andb_true_iff in Hw as [S2 Hw].
  apply andb_true_iff in Hw as [S3 Hw]. apply andb_true_iff in Hw as [S4 _].
  unfold total_seconds. cbn [lookup list_lookup default from_option id].
  destruct (int_or_0_capture o1) as [P1 ->];
    [intros; apply Hc; subst; simpl; auto|].
  destruct (int_or_0_capture o2) as [P2 ->];
    [intros; apply Hc; subst; simpl; auto|].
  destruct (int_or_0_capture o3) as [P3 ->];
    [intros; apply Hc; subst; simpl; auto|].
  destruct (int_or_0_capture o4) as [P4 ->];
    [intros; apply Hc; subst; simpl; auto|].
  rewrite S1, S2, S3, S4. cbn [ebind].
  eexists. split; [reflexivity | lia].
Qed.

End Trailing.

(** [compact_duration] decides the specification's notion of a duration. *)
Lemma scan_units_made_of (us : list N) (s : pystr) :
  snd (scan_units us s) = [] -> made_of us s.
Proof.
  revert s. induction us as [|u us IH]; intros s; simpl; [easy|].
  destruct (take_component u s) as [[ds rest]|] eqn:Hu.
  - destruct (scan_units us rest) as [g r] eqn:Hsc. simpl. intros ->.
    apply take_component_Some in Hu as (-> & Hall & Hne).
    exists (ds ++ [u]), rest. split; [right; eauto|].
    split; [now rewrite <- app_assoc|]. apply IH. now rewrite Hsc.
  - destruct (scan_units us s) as [g r] eqn:Hsc. simpl. intros ->.
    exists [], s. split; [now left|]. split; [reflexivity|].
    apply IH. now rewrite Hsc.
Qed.

Lemma compact_duration_made_of (s : pystr) :
  compact_duration s = true <-> made_of units s.
Proof.
  unfold compact_duration. rewrite bool_decide_eq_true. split.
  - apply scan_units_made_of.
  - unfold units. simpl.
    intros (gd & sd & Hd & -> & gh & sh & Hh & -> & gm & sm & Hm & ->
            & gs & ss & Hs & -> & ->).
    destruct Hd as [->|(d & Ad & Td & ->)];
      destruct Hh as [->|(h & Ah & Th & ->)];
      destruct Hm as [->|(m & Am & Tm & ->)];
      destruct Hs as [->|(x & Ax & Tx & ->)];
      rewrite <- ?app_assoc, ?app_nil_r; cbn [app];
      change (scan_units [unit_d; unit_h; unit_m; unit_s])
        with (scan_units units);
      run_scan; reflexivity.
Qed.

(** ** Input after a duration: what holds and what does not *)

Lemma existsb_false_In {A : Type} (f : A -> bool) (l : list A) (x : A) :
  existsb f l = false -> In x l -> f x = false.
Proof.
  induction l as [|y l IH]; simpl; [easy|].
  intros [Hy Hl]%orb_false_iff [->|Hin]; auto.
Qed.

Lemma starts_component_false (u : N) (t : pystr) :
  starts_component u t = false -> take_component u t = None.
Proof. unfold starts_component. now destruct (take_component u t). Qed.

Example continues_later_unit : continues (txt "1d") (txt "2h") = true.
Proof. reflexivity. Qed.

Example continues_same_unit : continues (txt "1d") (txt "2d") = false.
Proof. reflexivity. Qed.

Example continues_text :
  continues (txt "1d12h") (txt "30 minutes") = false.
Proof. reflexivity. Qed.

Example parse_refuses_long_number :
  parse_time_interval (replicate 4301 49%N ++ [unit_d])
  = inl (too_many_digits_for_int 4301).
Proof. vm_compute. reflexivity. Qed.

(** C4, as stated, fails twice over.  After the duration ["1d"] the suffix
    ["2h"] is not ignored, it is parsed as two more hours; and a compact
    duration whose number has 4301 digits does not parse at all, [int]
    refuses it. *)
Lemma trailing_component_is_parsed :
  ~ (forall s t : pystr,
        truthy_str s = true -> compact_duration s = true ->
        parse_time_interval (s ++ t) = parse_time_interval s)
  /\ ~ (forall s : pystr,
          truthy_str s = true -> compact_duration s = true ->
          exists n, parse_time_interval s = inr n).
Proof.
  split.
  - intros Hclaim. specialize (Hclaim (txt "1d") (txt "2h") eq_refl eq_refl).
    vm_compute in Hclaim. discriminate Hclaim.
  - intros Hclaim.
    destruct (Hclaim (replicate 4301 49%N ++ [unit_d])) as [n Hn].
    + reflexivity.
    + vm_compute. reflexivity.
    + rewrite parse_refuses_long_number in Hn. discriminate Hn.
Qed.

(** C4, amended.  For every non-empty compact duration [s] in which no
    number has more than 4300 digits and every suffix [t] that does not
    begin with an [<int><unit>] component of a unit coming after the last
    component of [s], [parse_time_interval (s + t)] succeeds and equals
    [parse_time_interval s]; and a non-empty string whose start matches none
    of the four components raises the invalid-format [ValueError]. *)
Theorem trailing_input_ignored :
  (forall s t : pystr,
      truthy_str s = true -> compact_duration s = true ->
      within_digit_limit s = true ->
      continues s t = false ->
      exists n, parse_time_interval s = inr n
                /\ parse_time_interval (s ++ t) = inr n)
  /\ (forall s : pystr,
        truthy_str s = true ->
        existsb (fun u => starts_component u s) units = false ->
        parse_time_interval s = inl (invalid_format s)).
Proof.
  split.
  - intros s t Hs Hc Hw Ht.
    apply bool_decide_eq_true in Hc.
    assert (scan_units units (s ++ t) = (fst (scan_units units s), t)) as Hst.
    { apply scan_units_append; [exact Hc|].
      intros u Hu. apply starts_component_false.
      exact (existsb_false_In _ _ u Ht Hu). }
    assert (py_any (fst (scan_units units s)) = true) as Hany.
    { destruct (py_any _) eqn:Hany; [reflexivity|].
      apply scan_units_no_capture in Hany. rewrite Hc in Hany.
      subst s. discriminate. }
    destruct (total_seconds_within_limit s Hw) as (n & Hn & _). exists n.
    rewrite !parse_time_interval_scan
      by (rewrite ?truthy_append, Hs; reflexivity).
    rewrite Hst. cbn [fst]. rewrite Hany. split; exact Hn.
  - intros s Hs Hnone.
    rewrite parse_time_interval_scan by exact Hs.
    unfold units in *. simpl in Hnone.
    repeat (apply orb_false_iff in Hnone as [?%starts_component_false Hnone]).
    cbn [scan_units].
    repeat match goal with
           | Hx : take_component ?u s = None |- _ => rewrite Hx; clear Hx
           end.
    reflexivity.
Qed.

Lemma trailing_input_ignored_witness :
  (exists n, parse_time_interval (txt "1d12h") = inr n
             /\ parse_time_interval (txt "1d12h" ++ txt "30 minutes") = inr n)
  /\ parse_time_interval (txt "garbage")
     = inl (invalid_format (txt "garbage")).
Proof.
  destruct trailing_input_ignored as [Hignored Hgarbage]. split.
  - apply (Hignored (txt "1d12h") (txt "30 minutes")); reflexivity.
  - apply (Hgarbage (txt "garbage")); reflexivity.
Defined.

(** * Further properties of the codec *)

Section CodecFacts.

Lemma parse_time_interval_outcome_aux (s : pystr) :
  (exists n, parse_time_interval s = inr n /\ 0 <= n)
  \/ parse_time_interval s = inl (invalid_format s)
  \/ (exists digits,
        max_str_digits < Z.of_nat digits
        /\ parse_time_interval s = inl (too_many_digits_for_int digits)).
Proof.
  destruct (truthy_str s) eqn:Hs.
  - rewrite parse_time_interval_scan by exact Hs.
    destruct (py_any _); [|now right; left].
    destruct (total_seconds_outcome s) as [Hn|Hk]; [now left | now right; right].
  - destruct s; [|discriminate]. left. exists 0. now split.
Qed.

Lemma parse_time_interval_nonneg (s : pystr) (n : Z) :
  parse_time_interval s = inr n -> 0 <= n.
Proof.
  intros Hs.
  destruct (parse_time_interval_outcome_aux s)
    as [(k & Hk & Hpos)|[Herr|(k & _ & Herr)]]; congruence.
Qed.

Lemma parse_time_interval_raises_ValueError (s : pystr) (e : exn) :
  parse_time_interval s = inl e -> exists text, e = ValueError text.
Proof.
  intros Hs.
  destruct (parse_time_interval_outcome_aux s)
    as [(k & Hk & Hpos)|[Herr|(k & _ & Herr)]]; [congruence| |];
    rewrite Herr in Hs; injection Hs as <-; eexists; reflexivity.
Qed.

(** X1.  [parse_time_interval] has three outcomes only: a non-negative
    number of seconds; the invalid-format [ValueError] naming its argument;
    or the [ValueError] with which [int] refuses a number of more than 4300
    digits.  Every exception that escapes is a [ValueError]. *)
Theorem parse_time_interval_outcome (s : pystr) :
  (exists n, parse_time_interval s = inr n /\ 0 <= n)
  \/ parse_time_interval s = inl (invalid_format s)
  \/ (exists digits,
        max_str_digits < Z.of_nat digits
        /\ parse_time_interval s = inl (too_many_digits_for_int digits)).
Proof. apply parse_time_interval_outcome_aux. Qed.

(** X2.  What a well-formed duration means.  For strings [d], [h], [m],
    [s] of one to 4300 decimal digits, each present or not, the text made of
    the present ones, each followed by its unit letter in the order d, h, m,
    s, parses to days times 86400 plus hours times 3600 plus minutes times
    60 plus seconds, with leading zeros allowed, digits of any script
    counted by their value, and a missing component counting 0. *)
Theorem parse_time_interval_components (d h m s : option pystr) :
  digits_ok d = true -> digits_ok h = true -> digits_ok m = true ->
  digits_ok s = true ->
  parse_time_interval (duration_text d h m s)
  = inr (component_value d * 86400 + component_value h * 3600
         + component_value m * 60 + component_value s).
Proof. intros Hd Hh Hm Hs. now apply parse_duration_text. Qed.


(** X3.  Different non-negative intervals are never written the same way:
    the string [format_time_interval] returns for one is not returned for
    another. *)
Theorem format_time_interval_injective (a b : Z) (s : pystr) :
  0 <= a -> 0 <= b -> a <> b ->
  format_time_interval a = inr s ->
  format_time_interval b <> inr s.
Proof.
  intros Ha Hb Hne Hfa Hfb.
  assert (forall n, 0 <= n -> format_time_interval n = inr s ->
                    parse_time_interval s = inr n) as Hback.
  { intros n Hn Hf.
    destruct (Z.lt_ge_cases n (86400 * int_str_bound)) as [Hlt|Hge].
    - destruct (parse_format_value n (conj Hn Hlt)) as (t & Ht & Hp & _).
      congruence.
    - rewrite format_time_interval_refused in Hf by exact Hge.
      discriminate Hf. }
  pose proof (Hback a Ha Hfa). pose proof (Hback b Hb Hfb). congruence.
Qed.

(** X4.  The canonical form keeps the meaning.  Whenever a string parses to
    [n] seconds and [format_time_interval n] returns (it raises only from
    [86400 * 10 ** 4300] seconds on), the formatted text, which is what
    [set_interval] and [status] show next to the raw string, is a compact
    duration with nothing left over that parses to [n] again. *)
Theorem format_of_parsed_keeps_value (s t : pystr) (n : Z) :
  parse_time_interval s = inr n ->
  format_time_interval n = inr t ->
  parse_time_interval t = inr n /\ compact_duration t = true.
Proof.
  intros Hs Ht. pose proof (parse_time_interval_nonneg s n Hs) as Hn.
  destruct (Z.lt_ge_cases n (86400 * int_str_bound)) as [Hlt|Hge].
  - destruct (parse_format_value n (conj Hn Hlt)) as (t' & Ht' & Hp & Hc).
    assert (t' = t) as -> by congruence. now split.
  - rewrite format_time_interval_refused in Ht by exact Hge.
    discriminate Ht.
Qed.

End CodecFacts.

Lemma parse_time_interval_components_witness :
  parse_time_interval (txt "007d5m")
  = inr (7 * 86400 + 0 * 3600 + 5 * 60 + 0).
Proof.
  apply (parse_time_interval_components
           (Some (txt "007")) None (Some (txt "5")) None);
    reflexivity.
Defined.

Lemma format_time_interval_injective_witness :
  format_time_interval 3660 <> inr (txt "1h").
Proof.
  apply (format_time_interval_injective 3600 3660 (txt "1h"));
    [lia | lia | lia | reflexivity].
Defined.

Lemma format_of_parsed_keeps_value_witness :
  parse_time_interval (txt "1h30m") = inr 5400
  /\ compact_duration (txt "1h30m") = true.
Proof.
  apply (format_of_parsed_keeps_value (txt "90m") (txt "1h30m") 5400);
    reflexivity.
Defined.


(** * Properties of the scheduler and the commands *)

Lemma timedelta_bound_formats : timedelta_bound <= 86400 * int_str_bound.
Proof.
  assert (999999999 < int_str_bound) as Hpow.
  { unfold int_str_bound.
    apply Z.lt_le_trans with (10 ^ 10); [reflexivity|].
    apply Z.pow_le_mono_r; lia. }
  unfold timedelta_bound. lia.
Qed.

(** [timedelta(seconds=n)] is built for exactly the non-negative [n] below
    [timedelta_bound]. *)
Lemma timedelta_seconds_ok (n : Z) :
  0 <= n < timedelta_bound -> timedelta_seconds n = inr n.
Proof.
  intros [Hn Hb]. unfold timedelta_seconds, timedelta_bound in *.
  assert (0 <= n `div` 86400 <= 999999999) as [Hlo Hhi].
  { split; [apply Z.div_pos; lia|].
    apply Z.lt_succ_r, Z.div_lt_upper_bound; lia. }
  destruct (Z.leb_spec (-999999999) (n `div` 86400)); [|lia].
  destruct (Z.leb_spec (n `div` 86400) 999999999); [|lia].
  reflexivity.
Qed.

Lemma timedelta_seconds_overflow (n : Z) :
  timedelta_bound <= n ->
  exists msg, timedelta_seconds n = inl (OverflowError msg).
Proof.
  intros Hn. unfold timedelta_seconds, timedelta_bound in *.
  assert (1000000000 <= n `div` 86400)
    by (apply Z.div_le_lower_bound; lia).
  destruct (Z.leb_spec (n `div` 86400) 999999999); [lia|].
  rewrite andb_false_r.
  destruct (_ && _); eexists; reflexivity.
Qed.

Lemma py_str_outcome (n : Z) (e : exn) :
  py_str n = inl e -> e = too_many_digits_for_str.
Proof. unfold py_str. destruct (_ <? _); congruence. Qed.

Lemma add_field_raises (b : bool) (r : pystr) (n : Z) (u : N) (e : exn) :
  (if b then add_field r n u else inr r) = inl e ->
  e = too_many_digits_for_str.
Proof.
  destruct b; [|discriminate]. unfold add_field.
  destruct (py_str n) as [e'|digits] eqn:Hn; [|discriminate].
  intros [= <-]. exact (py_str_outcome n e' Hn).
Qed.

(** [format_time_interval] raises nothing but the digit-limit
    [ValueError]. *)
Lemma format_time_interval_raises (n : Z) (e : exn) :
  format_time_interval n = inl e -> e = too_many_digits_for_str.
Proof.
  unfold format_time_interval, divmod.
  repeat match goal with
         | |- ebind ?m _ = inl e -> _ =>
             let Hm := fresh "Hm" in
             destruct m as [?|?] eqn:Hm; cbn [ebind];
             [intros [= <-]; exact (add_field_raises _ _ _ _ _ Hm)|]
         end.
  discriminate.
Qed.

Section HandlerFacts.

Context `{Datetime}.

Lemma load_config_stored (w : World) (c : Config) :
  config_file w = Stored c -> load_config w = (inr c, w).
Proof. intros Hc. unfold load_config. now rewrite Hc. Qed.

Lemma not_admin_true (update : Update) (c : Config) :
  effective_user_id update <> admin_id c -> not_admin update c = true.
Proof.
  intros Hne. unfold not_admin. now apply negb_true_iff, Z.eqb_neq.
Qed.

Lemma not_admin_false (update : Update) (c : Config) :
  effective_user_id update = admin_id c -> not_admin update c = false.
Proof.
  intros He. unfold not_admin. now apply negb_false_iff, Z.eqb_eq.
Qed.

(** Lines 290-307: once the configuration is read, the interval parsed and
    the [last_post_time] key found, [schedule_next_post] goes on with the
    delay [next_delay] computes. *)
Lemma schedule_next_post_delay
    (env : Env) (w : World) (c : Config) (I : Z) (last : option Z) :
  config_file w = Stored c ->
  parse_time_interval (post_interval c) = inr I ->
  get_last_post_time c = inr last ->
  schedule_next_post env w
  = announce_and_queue (next_delay last I (time_time env)) w.
Proof.
  intros Hc HI Hlast. unfold schedule_next_post, bind at 1 2 3.
  rewrite (load_config_stored w c Hc). unfold lift. now rewrite HI, Hlast.
Qed.

(** Lines 309-321 when both [timedelta]s can be built: one log line and the
    two jobs. *)
Lemma announce_and_queue_fits (d : Z) (w : World) :
  0 <= d -> d + 1 < timedelta_bound ->
  exists shown,
    format_time_interval d = inr shown
    /\ announce_and_queue d w
       = (inr tt,
          with_job_queue
            (job_queue w
             ++ [(d, PostScheduledPicture); (d + 1, ScheduleNextPost)])
            (with_logs
               (logs w ++ [(INFO, txt "Scheduling next post in " ++ shown)])
               w)).
Proof.
  intros Hd Hfit. pose proof timedelta_bound_formats as Hb.
  destruct (parse_format_value d ltac:(lia)) as (shown & Hshown & _).
  exists shown. split; [exact Hshown|].
  unfold announce_and_queue, run_once, bind, lift, logger_info.
  rewrite Hshown, !timedelta_seconds_ok by lia. cbn.
  now rewrite <- app_assoc.
Qed.

Lemma announce_and_queue_queues (d : Z) (w : World) :
  0 <= d -> d + 1 < timedelta_bound ->
  exists w',
    announce_and_queue d w = (inr tt, w')
    /\ job_queue w'
       = job_queue w ++ [(d, PostScheduledPicture); (d + 1, ScheduleNextPost)]
    /\ config_file w' = config_file w.
Proof.
  intros Hd Hfit.
  destruct (announce_and_queue_fits d w Hd Hfit) as (shown & _ & Hrun).
  eexists. split; [exact Hrun|]. now split.
Qed.

(** Lines 309-321 when a [timedelta] cannot be built: the exception leaves
    [schedule_next_post] with its own next run not queued. *)
Lemma announce_and_queue_overflow (d : Z) (w : World) :
  0 <= d -> timedelta_bound <= d + 1 ->
  exists e w',
    announce_and_queue d w = (inl e, w')
    /\ (job_queue w' = job_queue w
        \/ job_queue w' = job_queue w ++ [(d, PostScheduledPicture)])
    /\ config_file w' = config_file w.
Proof.
  intros Hd Hover.
  unfold announce_and_queue, run_once, bind, lift, logger_info.
  destruct (format_time_interval d) as [e|shown];
    [exists e, w; auto|].
  destruct (Z.lt_ge_cases d timedelta_bound) as [Hlt|Hge].
  - rewrite (timedelta_seconds_ok d) by lia.
    destruct (timedelta_seconds_overflow (d + 1) Hover) as [msg ->].
    cbn. eexists _, _. split; [reflexivity|]. cbn. auto.
  - destruct (timedelta_seconds_overflow d Hge) as [msg ->].
    cbn. eexists _, _. split; [reflexivity|]. cbn. auto.
Qed.

(** C2, amended.  When the stored [last_post_time] is a non-zero [T] and
    [post_interval] parses to [I], the delay [schedule_next_post] computes
    is exactly 1 if [T + I <= now] (one catch-up post, however many
    intervals were missed) and exactly [T + I - now] otherwise; it is
    positive; and when [delay + 1] is below the 86400000000000 seconds from
    which [timedelta] overflows, the post is queued [delay] seconds ahead and
    the next scheduling one second later. *)
Theorem schedule_catch_up (env : Env) (w : World) (c : Config) (T I : Z) :
  config_file w = Stored c ->
  last_post_time c = JInt T ->
  T <> 0 ->
  parse_time_interval (post_interval c) = inr I ->
  let d := if T + I <=? time_time env then 1 else T + I - time_time env in
  schedule_next_post env w = announce_and_queue d w
  /\ 0 < d
  /\ (d + 1 < timedelta_bound ->
      exists w',
        schedule_next_post env w = (inr tt, w')
        /\ job_queue w'
           = job_queue w
             ++ [(d, PostScheduledPicture); (d + 1, ScheduleNextPost)]
        /\ config_file w' = config_file w).
Proof.
  intros Hc HT Hnz HI d.
  assert (get_last_post_time c = inr (Some T)) as Hlast
    by (unfold get_last_post_time; now rewrite HT).
  assert (next_delay (Some T) I (time_time env) = d) as Hd.
  { unfold next_delay, truthy_int. simpl.
    destruct (Z.eqb_spec T 0); [contradiction|]. reflexivity. }
  assert (0 < d) as Hpos
    by (subst d; destruct (Z.leb_spec (T + I) (time_time env)); lia).
  rewrite (schedule_next_post_delay env w c I _ Hc HI Hlast), Hd.
  split; [reflexivity|]. split; [exact Hpos|].
  intros Hfit. apply announce_and_queue_queues; lia.
Qed.

(** With the key [last_post_time] absent, line 295 raises [KeyError] and
    nothing is queued. *)
Lemma schedule_next_post_missing_key
    (env : Env) (w : World) (c : Config) (I : Z) :
  config_file w = Stored c ->
  parse_time_interval (post_interval c) = inr I ->
  last_post_time c = NoKey ->
  schedule_next_post env w = (inl (KeyError (txt "last_post_time")), w).
Proof.
  intros Hc HI HT. unfold schedule_next_post, bind.
  rewrite (load_config_stored w c Hc). unfold lift, get_last_post_time.
  now rewrite HI, HT.
Qed.

(** C3, amended.  When [last_post_time] is stored as null and
    [post_interval] parses to [I], the delay [schedule_next_post] computes
    is exactly [I], whatever the clock reads (so it is 0 for an interval of
    0 seconds and 1 for an interval of 1 second), and when [I + 1] is below
    the 86400000000000 seconds from which [timedelta] overflows the post is
    queued [I] seconds ahead and the next scheduling one second later. *)
Theorem schedule_first_post (env : Env) (w : World) (c : Config) (I : Z) :
  config_file w = Stored c ->
  last_post_time c = JNull ->
  parse_time_interval (post_interval c) = inr I ->
  schedule_next_post env w = announce_and_queue I w
  /\ (I + 1 < timedelta_bound ->
      exists w',
        schedule_next_post env w = (inr tt, w')
        /\ job_queue w'
           = job_queue w
             ++ [(I, PostScheduledPicture); (I + 1, ScheduleNextPost)]).
Proof.
  intros Hc HT HI.
  assert (get_last_post_time c = inr None) as Hlast
    by (unfold get_last_post_time; now rewrite HT).
  rewrite (schedule_next_post_delay env w c I _ Hc HI Hlast).
  change (next_delay None I (time_time env)) with I.
  split; [reflexivity|]. intros Hfit.
  pose proof (parse_time_interval_nonneg _ _ HI) as Hpos.
  destruct (announce_and_queue_queues I w Hpos Hfit) as (w' & Hrun & Hq & _).
  exists w'. now split.
Qed.

(** Lines 104-138 for the admin when the stored [last_post_time] is 0:
    [status] raises what [format_time_interval] raises, and otherwise
    replies with the settings followed by the no-posts line. *)
Lemma status_never_posted
    (update : Update) (env : Env) (w : World) (c : Config) (I : Z) :
  config_file w = Stored c ->
  last_post_time c = JInt 0 ->
  parse_time_interval (post_interval c) = inr I ->
  effective_user_id update = admin_id c ->
  status update env w
  = match format_time_interval I with
    | inr shown =>
        (inr tt,
         with_replies (replies w ++ [settings_text c shown ++ no_posts_yet])
           w)
    | inl e => (inl e, w)
    end.
Proof.
  intros Hc HT HI Hadmin. unfold status, bind.
  rewrite (load_config_stored w c Hc), (not_admin_false update c Hadmin).
  unfold lift, get_last_post_time. rewrite HI, HT.
  destruct (format_time_interval I) as [e|shown]; reflexivity.
Qed.

(** C5, amended.  A stored [last_post_time] of 0 counts as never posted:
    the delay [schedule_next_post] computes is the interval [I], not the
    catch-up delay 1, whatever the clock reads, with the two jobs queued
    when [I + 1] is below the 86400000000000 seconds from which [timedelta]
    overflows; and for every interval below [86400 * 10 ** 4300] seconds,
    which [format_time_interval] can write, [status] reports that no posts
    have been made yet. *)
Theorem zero_last_post_time_is_never_posted
    (update : Update) (env : Env) (w : World) (c : Config) (I : Z) :
  config_file w = Stored c ->
  last_post_time c = JInt 0 ->
  parse_time_interval (post_interval c) = inr I ->
  schedule_next_post env w = announce_and_queue I w
  /\ (I + 1 < timedelta_bound ->
      exists w',
        schedule_next_post env w = (inr tt, w')
        /\ job_queue w'
           = job_queue w
             ++ [(I, PostScheduledPicture); (I + 1, ScheduleNextPost)])
  /\ (effective_user_id update = admin_id c ->
      I < 86400 * int_str_bound ->
      exists shown,
        format_time_interval I = inr shown
        /\ status update env w
           = (inr tt,
              with_replies
                (replies w ++ [settings_text c shown ++ no_posts_yet]) w)).
Proof.
  intros Hc HT HI.
  assert (get_last_post_time c = inr (Some 0)) as Hlast
    by (unfold get_last_post_time; now rewrite HT).
  pose proof (parse_time_interval_nonneg _ _ HI) as Hpos.
  rewrite (schedule_next_post_delay env w c I _ Hc HI Hlast).
  change (next_delay (Some 0) I (time_time env)) with I.
  split; [reflexivity|]. split.
  - intros Hfit.
    destruct (announce_and_queue_queues I w Hpos Hfit) as (w' & Hrun & Hq & _).
    exists w'. now split.
  - intros Hadmin Hbound.
    destruct (parse_format_value I (conj Hpos Hbound)) as (shown & Hf & _).
    exists shown. split; [exact Hf|].
    rewrite (status_never_posted update env w c I Hc HT HI Hadmin).
    now rewrite Hf.
Qed.

Lemma post_now_outcome (update : Update) (env : Env) (w : World) (c : Config) :
  config_file w = Stored c ->
  post_outcome env w (snd (post_now update env w)) c.
Proof.
  intros Hc. unfold post_outcome, post_now, bind.
  rewrite (load_config_stored w c Hc).
  destruct (not_admin update c); [now left|].
  unfold try_except, path_exists, open_rb, send_photo. simpl.
  destruct (files w !! picture_path c) as [[|]|] eqn:Hf; simpl;
    rewrite ?Hf; simpl; try (left; assumption).
  destruct (send_photo_error env); simpl; [left; assumption|].
  right. auto.
Qed.

Lemma post_scheduled_picture_outcome (env : Env) (w : World) (c : Config) :
  config_file w = Stored c ->
  post_outcome env w (snd (post_scheduled_picture env w)) c.
Proof.
  intros Hc. unfold post_outcome, post_scheduled_picture, bind.
  rewrite (load_config_stored w c Hc).
  unfold try_except, path_exists, open_rb, send_photo. simpl.
  destruct (files w !! picture_path c) as [[|]|] eqn:Hf; simpl;
    rewrite ?Hf; simpl; try (left; assumption).
  destruct (send_photo_error env); simpl; [left; assumption|].
  right. auto.
Qed.

(** C6.  A post attempt that fails, because the configured picture does not
    exist or because the transmission raises, leaves the stored
    configuration, and with it [last_post_time], as it was, for [post_now]
    and for [post_scheduled_picture] alike; and whenever either of them does
    change the stored configuration, the picture has been transmitted. *)
Theorem failed_post_keeps_last_post_time
    (update : Update) (env : Env) (w : World) (c : Config) :
  config_file w = Stored c ->
  ((files w !! picture_path c = None \/ is_Some (send_photo_error env)) ->
   config_file (snd (post_now update env w)) = Stored c
   /\ config_file (snd (post_scheduled_picture env w)) = Stored c)
  /\ (forall w',
        w' = snd (post_now update env w)
        \/ w' = snd (post_scheduled_picture env w) ->
        config_file w' <> Stored c ->
        send_photo_error env = None
        /\ channel_posts w'
           = channel_posts w ++ [(channel_name c, picture_path c)]
        /\ config_file w' = Stored (set_last_post_time (time_time env) c)).
Proof.
  intros Hc.
  pose proof (post_now_outcome update env w c Hc) as Hnow.
  pose proof (post_scheduled_picture_outcome env w c Hc) as Hsched.
  split.
  - intros Hfail. split.
    + destruct Hnow as [Hsame|(Hok & Hfile & _)]; [exact Hsame|].
      destruct Hfail as [Hmiss|[msg Herr]]; congruence.
    + destruct Hsched as [Hsame|(Hok & Hfile & _)]; [exact Hsame|].
      destruct Hfail as [Hmiss|[msg Herr]]; congruence.
  - intros w' [->| ->] Hchanged.
    + destruct Hnow as [Hsame|(Hok & _ & Hposts & Hcfg)]; [contradiction|].
      auto.
    + destruct Hsched as [Hsame|(Hok & _ & Hposts & Hcfg)]; [contradiction|].
      auto.
Qed.

(** C7.  Invoked by the admin, [set_interval] stores its argument as
    [post_interval] exactly when the argument is present, parses, and parses
    to at least 10 seconds; otherwise nothing is stored and the
    configuration is unchanged.  ["5s"] is refused and ["10s"] accepted. *)
Theorem set_interval_floor
    (update : Update) (env : Env) (w : World) (c : Config) :
  config_file w = Stored c ->
  effective_user_id update = admin_id c ->
  let w' := snd (set_interval update env w) in
  (if acceptable_interval (args update)
   then config_file w'
        = Stored (set_post_interval (hd [] (args update)) c)
        /\ logs w' = logs w ++ [(INFO, txt "Config saved successfully.")]
   else config_file w' = Stored c /\ logs w' = logs w)
  /\ acceptable_interval [txt "5s"] = false
  /\ acceptable_interval [txt "10s"] = true.
Proof.
  intros Hc Hadmin w'. split; [|split; reflexivity].
  subst w'. unfold set_interval, bind.
  rewrite (load_config_stored w c Hc), (not_admin_false update c Hadmin).
  unfold acceptable_interval.
  destruct (args update) as [|interval_str rest]; [now split|].
  unfold try_except, lift, save_config, bind, logger_info, reply_text.
  simpl.
  destruct (parse_time_interval interval_str) as [e|seconds] eqn:Hp.
  - destruct e; simpl; now split.
  - destruct (Z.ltb_spec seconds 10), (Z.leb_spec 10 seconds); try lia;
      simpl; [now split|].
    destruct (format_time_interval seconds) as [e|shown] eqn:Hf;
      [|now split].
    apply format_time_interval_raises in Hf. subst e. now split.
Qed.

(** The floor is applied to the value, whatever script its digits are
    written in: ten seconds in Arabic-Indic digits are accepted. *)
Example acceptable_interval_arabic_indic :
  acceptable_interval [[1633; 1632]%N ++ txt "s"] = true.
Proof. reflexivity. Qed.

(** C8.  Whatever the command, when the sender is not the admin the
    handler answers that the sender is not authorized and changes nothing
    else: the stored configuration, the files, the log, the channel and the
    job queue are as before. *)
Theorem unauthorized_command_changes_nothing
    (cmd : command) (update : Update) (env : Env) (w : World) (c : Config) :
  config_file w = Stored c ->
  effective_user_id update <> admin_id c ->
  handler cmd update env w
  = (inr tt, with_replies (replies w ++ [not_authorized]) w)
  /\ config_file (snd (handler cmd update env w)) = config_file w.
Proof.
  intros Hc Hne.
  assert (handler cmd update env w
          = (inr tt, with_replies (replies w ++ [not_authorized]) w)) as Hrun.
  { destruct cmd; simpl;
      unfold start, status, set_channel, set_interval, set_picture, post_now,
        bind;
      rewrite (load_config_stored w c Hc), (not_admin_true update c Hne);
      reflexivity. }
  split; [exact Hrun|]. now rewrite Hrun.
Qed.

End HandlerFacts.

(** * The theorems at concrete inputs *)

Lemma schedule_catch_up_witness :
  exists w',
    schedule_next_post (sample_env 1000 None)
      (sample_world (sample_config "1m" (JInt 100)))
    = (inr tt, w')
    /\ job_queue w' = [(1, PostScheduledPicture); (2, ScheduleNextPost)]
    /\ config_file w' = Stored (sample_config "1m" (JInt 100)).
Proof.
  pose proof (@schedule_catch_up seconds_clock (sample_env 1000 None)
                (sample_world (sample_config "1m" (JInt 100)))
                (sample_config "1m" (JInt 100)) 100 60
                eq_refl eq_refl ltac:(discriminate) eq_refl) as Hrun.
  cbv zeta in Hrun. destruct Hrun as (_ & _ & Hqueue).
  exact (Hqueue eq_refl).
Defined.

(** C2, as stated, fails at [T = 0]: with [last_post_time] 0, an interval
    of one minute and the clock at 1000 the next post is long overdue, yet
    the delay the scheduler computes is the full 60 seconds, not 1. *)
Lemma schedule_catch_up_not_at_zero :
  ~ (forall (env : @Env seconds_clock) (w : World) (c : Config) (T I : Z),
        config_file w = Stored c ->
        last_post_time c = JInt T ->
        parse_time_interval (post_interval c) = inr I ->
        let d :=
          if T + I <=? time_time env then 1 else T + I - time_time env in
        schedule_next_post env w = announce_and_queue d w).
Proof.
  intros Hclaim.
  specialize (Hclaim (sample_env 1000 None)
                (sample_world (sample_config "1m" (JInt 0)))
                (sample_config "1m" (JInt 0)) 0 60 eq_refl eq_refl eq_refl).
  vm_compute in Hclaim. discriminate Hclaim.
Qed.

Lemma schedule_first_post_witness :
  exists w',
    schedule_next_post (sample_env 1000 None)
      (sample_world (sample_config "1h" JNull))
    = (inr tt, w')
    /\ job_queue w'
       = [(3600, PostScheduledPicture); (3601, ScheduleNextPost)].
Proof.
  destruct (@schedule_first_post seconds_clock (sample_env 1000 None)
              (sample_world (sample_config "1h" JNull))
              (sample_config "1h" JNull) 3600 eq_refl eq_refl eq_refl)
    as [_ Hqueue].
  exact (Hqueue eq_refl).
Defined.

(** C3, as stated, fails twice over.  With [last_post_time] null and the
    interval ["0s"] the post is queued 0 seconds ahead, so the delay can be
    0 (and with ["1s"] it is 1); and with the key [last_post_time] absent
    no delay is computed at all, the scheduler raises [KeyError]. *)
Lemma first_post_delay_can_be_zero :
  ~ (forall (env : @Env seconds_clock) (w w' : World) (c : Config)
            (I d : Z),
        config_file w = Stored c ->
        last_post_time c = JNull ->
        parse_time_interval (post_interval c) = inr I ->
        schedule_next_post env w = (inr tt, w') ->
        In (d, PostScheduledPicture) (job_queue w') ->
        d = I /\ d <> 1 /\ d <> 0)
  /\ ~ (forall (env : @Env seconds_clock) (w : World) (c : Config) (I : Z),
          config_file w = Stored c ->
          last_post_time c = NoKey ->
          parse_time_interval (post_interval c) = inr I ->
          exists d, schedule_next_post env w = announce_and_queue d w
                    /\ d = I).
Proof.
  split.
  - intros Hclaim.
    destruct (Hclaim (sample_env 1000 None)
                (sample_world (sample_config "0s" JNull))
                (snd (schedule_next_post (sample_env 1000 None)
                        (sample_world (sample_config "0s" JNull))))
                (sample_config "0s" JNull) 0 0
                eq_refl eq_refl eq_refl eq_refl (or_introl eq_refl))
      as (_ & _ & Hzero).
    now apply Hzero.
  - intros Hclaim.
    destruct (Hclaim (sample_env 1000 None)
                (sample_world (sample_config "1h" NoKey))
                (sample_config "1h" NoKey) 3600 eq_refl eq_refl eq_refl)
      as (d & Hrun & ->).
    rewrite (@schedule_next_post_missing_key seconds_clock
               (sample_env 1000 None)
               (sample_world (sample_config "1h" NoKey))
               (sample_config "1h" NoKey) 3600 eq_refl eq_refl eq_refl)
      in Hrun.
    vm_compute in Hrun. discriminate Hrun.
Qed.

Lemma zero_last_post_time_is_never_posted_witness :
  (exists w',
      schedule_next_post (sample_env 1000 None)
        (sample_world (sample_config "1m" (JInt 0)))
      = (inr tt, w')
      /\ job_queue w' = [(60, PostScheduledPicture); (61, ScheduleNextPost)])
  /\ exists shown,
       format_time_interval 60 = inr shown
       /\ status (mkUpdate 42 [] None) (sample_env 1000 None)
            (sample_world (sample_config "1m" (JInt 0)))
          = (inr tt,
             with_replies
               [settings_text (sample_config "1m" (JInt 0)) shown
                ++ no_posts_yet]
               (sample_world (sample_config "1m" (JInt 0)))).
Proof.
  destruct (@zero_last_post_time_is_never_posted seconds_clock
              (mkUpdate 42 [] None) (sample_env 1000 None)
              (sample_world (sample_config "1m" (JInt 0)))
              (sample_config "1m" (JInt 0)) 60
              eq_refl eq_refl eq_refl) as (_ & Hsched & Hstatus).
  split; [exact (Hsched eq_refl)|].
  apply (Hstatus eq_refl).
  pose proof int_str_bound_large. lia.
Defined.

Example parse_huge_interval :
  parse_time_interval huge_interval = inr huge_seconds.
Proof. vm_compute. reflexivity. Qed.

Lemma format_huge_seconds :
  format_time_interval huge_seconds = inl too_many_digits_for_str.
Proof.
  apply format_time_interval_refused. unfold huge_seconds.
  pose proof int_str_bound_large. lia.
Qed.

(** C5, as stated, fails for an interval that parses but is too large to
    be written: with [last_post_time] 0 and the interval of 4300 nines of
    days and 99999 hours, [status] raises the [ValueError] of line 117 and
    reports nothing. *)
Lemma status_raises_for_huge_interval :
  ~ (forall (update : Update) (env : @Env seconds_clock) (w : World)
            (c : Config) (I : Z),
        config_file w = Stored c ->
        last_post_time c = JInt 0 ->
        parse_time_interval (post_interval c) = inr I ->
        effective_user_id update = admin_id c ->
        exists text,
          status update env w
          = (inr tt, with_replies (replies w ++ [text]) w)).
Proof.
  intros Hclaim.
  destruct (Hclaim admin_update (sample_env 1000 None)
              (sample_world huge_config) huge_config huge_seconds
              eq_refl eq_refl parse_huge_interval eq_refl)
    as [text Hrun].
  rewrite (@status_never_posted seconds_clock admin_update
             (sample_env 1000 None) (sample_world huge_config) huge_config
             huge_seconds eq_refl eq_refl parse_huge_interval eq_refl)
    in Hrun.
  rewrite format_huge_seconds in Hrun. discriminate Hrun.
Qed.

Lemma failed_post_keeps_last_post_time_witness :
  (config_file
     (snd (post_now (mkUpdate 42 [] None)
             (sample_env 1000 (Some (txt "timed out")))
             (sample_world (sample_config "1m" (JInt 100)))))
   = Stored (sample_config "1m" (JInt 100))
   /\ config_file
        (snd (post_scheduled_picture
                (sample_env 1000 (Some (txt "timed out")))
                (sample_world (sample_config "1m" (JInt 100)))))
      = Stored (sample_config "1m" (JInt 100)))
  /\ channel_posts
       (snd (post_now (mkUpdate 42 [] None) (sample_env 1000 None)
               (sample_world (sample_config "1m" (JInt 100)))))
     = [(txt "@channel", txt "pictures/picture_1.jpg")].
Proof.
  split.
  - apply (@failed_post_keeps_last_post_time seconds_clock
             (mkUpdate 42 [] None) (sample_env 1000 (Some (txt "timed out")))
             (sample_world (sample_config "1m" (JInt 100)))
             (sample_config "1m" (JInt 100)) eq_refl).
    right. exists (txt "timed out"). reflexivity.
  - destruct (@failed_post_keeps_last_post_time seconds_clock
                (mkUpdate 42 [] None) (sample_env 1000 None)
                (sample_world (sample_config "1m" (JInt 100)))
                (sample_config "1m" (JInt 100)) eq_refl) as [_ Hchanged].
    apply (Hchanged _ (or_introl eq_refl)). vm_compute. discriminate.
Defined.

Lemma set_interval_floor_witness :
  config_file
    (snd (set_interval (mkUpdate 42 [txt "10s"] None) (sample_env 1000 None)
            (sample_world (sample_config "1m" JNull))))
  = Stored (sample_config "10s" JNull)
  /\ config_file
       (snd (set_interval (mkUpdate 42 [txt "5s"] None)
               (sample_env 1000 None)
               (sample_world (sample_config "1m" JNull))))
     = Stored (sample_config "1m" JNull).
Proof.
  split.
  - exact (proj1 (proj1 (@set_interval_floor seconds_clock
                           (mkUpdate 42 [txt "10s"] None)
                           (sample_env 1000 None)
                           (sample_world (sample_config "1m" JNull))
                           (sample_config "1m" JNull) eq_refl eq_refl))).
  - exact (proj1 (proj1 (@set_interval_floor seconds_clock
                           (mkUpdate 42 [txt "5s"] None)
                           (sample_env 1000 None)
                           (sample_world (sample_config "1m" JNull))
                           (sample_config "1m" JNull) eq_refl eq_refl))).
Defined.

Lemma unauthorized_command_changes_nothing_witness :
  config_file
    (snd (handler CmdSetInterval (mkUpdate 7 [txt "10s"] None)
            (sample_env 1000 None)
            (sample_world (sample_config "1m" JNull))))
  = Stored (sample_config "1m" JNull).
Proof.
  apply (@unauthorized_command_changes_nothing seconds_clock CmdSetInterval
           (mkUpdate 7 [txt "10s"] None) (sample_env 1000 None)
           (sample_world (sample_config "1m" JNull))
           (sample_config "1m" JNull) eq_refl).
  discriminate.
Defined.

(** * Further properties of the handlers and the scheduler *)

Section EntryFacts.

Context `{Datetime}.

(** Runs a handler: unfolds the monad and splits on every test. *)
Ltac world_simpl :=
  cbn [fst snd config_file files replies logs channel_posts job_queue
       with_config_file with_files with_replies with_logs
       with_channel_posts with_job_queue].

Ltac run_handler :=
  unfold announce_and_queue, save_config, send_photo, download;
  unfold try_except, bind, lift, ret, raise, reply_text, logger_info,
    logger_error, path_exists, open_rb, makedirs, run_once;
  unfold bind, lift;
  repeat (world_simpl;
          match goal with
          | |- context [match ?x with _ => _ end] =>
              lazymatch x with
              | context [match _ with _ => _ end] => fail
              | _ => destruct x eqn:?
              end
          end);
  world_simpl.

Ltac unfold_entry Hc :=
  unfold start, status, set_channel, set_interval, set_picture, post_now,
    post_scheduled_picture, schedule_next_post, bind;
  rewrite (load_config_stored _ _ Hc).

Lemma entry_config_step (e : entry_point) (env : Env) (w : World) (c : Config) :
  config_file w = Stored c ->
  exists c', config_file (snd (run_entry e env w)) = Stored c'
             /\ config_step c c'.
Proof.
  intros Hc. destruct e as [[] update|[]]; simpl; unfold_entry Hc;
    run_handler; rewrite ?Hc; (eexists; split; [reflexivity|]);
    first [ apply step_same
          | apply step_channel; now apply negb_false_iff
          | eapply step_interval; [eassumption | now apply Z.ltb_ge]
          | apply step_picture
          | apply step_posted ].
Qed.

(** Each way of rewriting the configuration keeps who the admin is, the
    token, and the validity of the interval and of the channel name. *)
Lemma config_step_keeps (c c' : Config) :
  config_step c c' ->
  admin_id c' = admin_id c /\ bot_token c' = bot_token c
  /\ (interval_ok c -> interval_ok c') /\ (channel_ok c -> channel_ok c').
Proof.
  intros Hstep. destruct Hstep; repeat split; auto.
  intros _. now exists n.
Qed.

Lemma run_all_config_step (es : list (entry_point * Env)) (w : World)
    (c : Config) :
  config_file w = Stored c ->
  exists c', config_file (run_all es w) = Stored c'
             /\ admin_id c' = admin_id c /\ bot_token c' = bot_token c
             /\ (interval_ok c -> interval_ok c')
             /\ (channel_ok c -> channel_ok c').
Proof.
  revert w c. induction es as [|[e env] es IH]; intros w c Hc; simpl.
  - exists c. auto.
  - destruct (entry_config_step e env w c Hc) as (c1 & Hc1 & Hstep).
    destruct (config_step_keeps c c1 Hstep) as (Ha & Hb & Hi & Hch).
    destruct (IH _ c1 Hc1) as (c' & Hc' & Ha' & Hb' & Hi' & Hch').
    exists c'. repeat split; try congruence; auto.
Qed.

(** X5.  No command and no scheduled job, in any number and order, run one
    after another, ever removes or corrupts the stored configuration or
    changes its [admin_id] or [bot_token]. *)
Theorem identity_is_never_rewritten (es : list (entry_point * Env))
    (w : World) (c : Config) :
  config_file w = Stored c ->
  exists c', config_file (run_all es w) = Stored c'
             /\ admin_id c' = admin_id c /\ bot_token c' = bot_token c.
Proof.
  intros Hc.
  destruct (run_all_config_step es w c Hc) as (c' & Hc' & Ha & Hb & _).
  exists c'. auto.
Qed.

(** X6.  Validated fields stay valid.  If the stored [post_interval] parses
    to at least 10 seconds it still does after any commands and jobs, and
    likewise a stored [channel_name] that starts with [@] keeps doing so:
    the handlers only ever store values that passed their checks. *)
Theorem validated_fields_stay_valid (es : list (entry_point * Env))
    (w : World) (c : Config) :
  config_file w = Stored c ->
  exists c', config_file (run_all es w) = Stored c'
             /\ (interval_ok c -> interval_ok c')
             /\ (channel_ok c -> channel_ok c').
Proof.
  intros Hc.
  destruct (run_all_config_step es w c Hc) as (c' & Hc' & _ & _ & Hi & Hch).
  exists c'. auto.
Qed.

(** X7.  Without a readable [config.json] nothing runs: every command
    handler, both scheduled jobs and [main] log one error and raise
    ([FileNotFoundError] when the file is missing, [JSONDecodeError] when it
    is not valid JSON), with no reply, no post and no job queued. *)
Theorem unreadable_config_stops_everything (e : entry_point) (env : Env)
    (w : World) :
  (config_file w = NoFile ->
   let w' :=
     with_logs
       (logs w ++ [(ERROR, txt "Config file config.json not found.")]) w
   in run_entry e env w = (inl (FileNotFoundError CONFIG_FILE), w')
      /\ main env w = (inl (FileNotFoundError CONFIG_FILE), w'))
  /\ (config_file w = InvalidJSON ->
      let w' :=
        with_logs
          (logs w
           ++ [(ERROR,
                txt "Error parsing config.json. Make sure it's valid JSON.")])
          w
      in run_entry e env w = (inl JSONDecodeError, w')
         /\ main env w = (inl JSONDecodeError, w')).
Proof.
  split; intros Hc w'; subst w';
    (split; [destruct e as [[] update|[]]; simpl|]);
    unfold main, start, status, set_channel, set_interval, set_picture,
      post_now, post_scheduled_picture, schedule_next_post, bind, load_config;
    rewrite Hc; reflexivity.
Qed.

(** X8.  [set_channel], invoked by the admin, stores its first argument
    as [channel_name] and confirms it when the argument starts with [@];
    with no argument or another first character it stores nothing and
    logs nothing.  It never raises. *)
Theorem set_channel_checks_the_name
    (update : Update) (env : Env) (w : World) (c : Config) :
  config_file w = Stored c ->
  effective_user_id update = admin_id c ->
  let w' := snd (set_channel update env w) in
  fst (set_channel update env w) = inr tt
  /\ match args update with
     | name :: _ =>
         if startswith name (txt "@")
         then config_file w' = Stored (set_channel_name name c)
              /\ replies w' = replies w ++ [txt "Channel set to " ++ name]
         else config_file w' = Stored c /\ logs w' = logs w
     | [] => config_file w' = Stored c /\ logs w' = logs w
     end.
Proof.
  intros Hc Hadmin w'. subst w'. unfold_entry Hc.
  rewrite (not_admin_false update c Hadmin).
  destruct (args update) as [|name rest]; [now repeat split|].
  destruct (startswith name (txt "@")); now repeat split.
Qed.

(** X9.  [post_now] never raises once the configuration is read: whoever
    asks and whatever goes wrong, it ends normally with exactly one reply,
    and it touches neither the files nor the job queue. *)
Theorem post_now_always_answers
    (update : Update) (env : Env) (w : World) (c : Config) :
  config_file w = Stored c ->
  let w' := snd (post_now update env w) in
  fst (post_now update env w) = inr tt
  /\ (exists text, replies w' = replies w ++ [text])
  /\ files w' = files w /\ job_queue w' = job_queue w.
Proof.
  intros Hc w'. subst w'. unfold_entry Hc. run_handler;
    repeat split; eauto; try congruence.
Qed.

Lemma post_now_success_aux
    (update : Update) (env : Env) (w : World) (c : Config) :
  config_file w = Stored c ->
  effective_user_id update = admin_id c ->
  files w !! picture_path c = Some RegularFile ->
  send_photo_error env = None ->
  let w' := snd (post_now update env w) in
  config_file w' = Stored (set_last_post_time (time_time env) c)
  /\ channel_posts w'
     = channel_posts w ++ [(channel_name c, picture_path c)]
  /\ replies w' = replies w ++ [txt "Picture posted successfully!"].
Proof.
  intros Hc Hadmin Hfile Hsend w'. subst w'. unfold_entry Hc.
  rewrite (not_admin_false update c Hadmin).
  unfold try_except, bind, path_exists, open_rb, send_photo.
  rewrite Hfile. cbn. rewrite Hfile, Hsend. cbn. now repeat split.
Qed.

(** X10.  A post that goes through.  When the admin runs [post_now], the
    configured picture is a regular file and the transmission succeeds, the
    picture is sent to the configured channel, [last_post_time] becomes the
    current time with every other field kept, and the operator is told the
    picture was posted. *)
Theorem post_now_success
    (update : Update) (env : Env) (w : World) (c : Config) :
  config_file w = Stored c ->
  effective_user_id update = admin_id c ->
  files w !! picture_path c = Some RegularFile ->
  send_photo_error env = None ->
  let w' := snd (post_now update env w) in
  config_file w' = Stored (set_last_post_time (time_time env) c)
  /\ channel_posts w'
     = channel_posts w ++ [(channel_name c, picture_path c)]
  /\ replies w' = replies w ++ [txt "Picture posted successfully!"].
Proof. apply post_now_success_aux. Qed.

(** X11.  How [post_now] reports a failure to the admin: a missing picture
    with the picture-not-found text naming the path, a picture path that is
    a directory (it exists, but cannot be opened) and a transmission error
    with ["Error posting picture: "] followed by the error's text. *)
Theorem post_now_reports_failure
    (update : Update) (env : Env) (w : World) (c : Config) :
  config_file w = Stored c ->
  effective_user_id update = admin_id c ->
  let w' := snd (post_now update env w) in
  (files w !! picture_path c = None ->
   replies w'
   = replies w
     ++ [txt "Picture not found: " ++ picture_path c ++ nl
         ++ txt "Please set a valid picture using /setpicture."])
  /\ (files w !! picture_path c = Some Directory ->
      replies w'
      = replies w
        ++ [txt "Error posting picture: "
            ++ str_exn (IsADirectoryError (picture_path c))])
  /\ (forall msg,
        files w !! picture_path c = Some RegularFile ->
        send_photo_error env = Some msg ->
        replies w' = replies w ++ [txt "Error posting picture: " ++ msg]).
Proof.
  intros Hc Hadmin w'. subst w'. unfold_entry Hc.
  rewrite (not_admin_false update c Hadmin).
  unfold try_except, bind, path_exists, open_rb, send_photo.
  repeat split.
  - intros Hfile. rewrite Hfile. reflexivity.
  - intros Hfile. rewrite Hfile. cbn. rewrite Hfile. reflexivity.
  - intros msg Hfile Hsend. rewrite Hfile. cbn. rewrite Hfile, Hsend.
    reflexivity.
Qed.

Lemma post_scheduled_picture_quiet (env : Env) (w : World) (c : Config) :
  config_file w = Stored c ->
  let w' := snd (post_scheduled_picture env w) in
  fst (post_scheduled_picture env w) = inr tt
  /\ replies w' = replies w /\ files w' = files w
  /\ job_queue w' = job_queue w
  /\ exists entry entries, logs w' = logs w ++ entry :: entries.
Proof.
  intros Hc w'. subst w'. unfold_entry Hc. run_handler;
    repeat split; try congruence;
    rewrite <- ?app_assoc; eauto.
Qed.

(** X12.  The scheduled post works in the background: once the
    configuration is read it never raises, never writes to the operator and
    never touches the files or the job queue, and every run leaves at least
    one line in the log. *)
Theorem post_scheduled_picture_is_quiet
    (env : Env) (w : World) (c : Config) :
  config_file w = Stored c ->
  let w' := snd (post_scheduled_picture env w) in
  fst (post_scheduled_picture env w) = inr tt
  /\ replies w' = replies w /\ files w' = files w
  /\ job_queue w' = job_queue w
  /\ exists entry entries, logs w' = logs w ++ entry :: entries.
Proof. apply post_scheduled_picture_quiet. Qed.

Lemma post_scheduled_picture_success (env : Env) (w : World) (c : Config) :
  config_file w = Stored c ->
  files w !! picture_path c = Some RegularFile ->
  send_photo_error env = None ->
  let w' := snd (post_scheduled_picture env w) in
  config_file w' = Stored (set_last_post_time (time_time env) c)
  /\ channel_posts w'
     = channel_posts w ++ [(channel_name c, picture_path c)].
Proof.
  intros Hc Hfile Hsend w'. subst w'. unfold_entry Hc.
  unfold try_except, bind, path_exists, open_rb, send_photo.
  rewrite Hfile. cbn. rewrite Hfile, Hsend. cbn. now split.
Qed.

(** X13.  Posts do not drift.  After a scheduled post that went through at
    time [t] (not 0), the scheduler, whenever it runs next, aims at [t + I]
    exactly: run at [t'] before that moment the delay it computes is
    [t + I - t'], so with the rescheduling job one second after the post and
    [I >= 2] it is [I - 1]; run at or after that moment it is 1 second.
    When [delay + 1] is below the 86400000000000 seconds from which
    [timedelta] overflows, the two jobs are queued with that delay. *)
Theorem next_post_is_one_interval_after_the_last
    (env env' : Env) (w : World) (c : Config) (I : Z) :
  config_file w = Stored c ->
  parse_time_interval (post_interval c) = inr I ->
  files w !! picture_path c = Some RegularFile ->
  send_photo_error env = None ->
  time_time env <> 0 ->
  let t := time_time env in
  let t' := time_time env' in
  let d := if t + I <=? t' then 1 else t + I - t' in
  let w1 := snd (post_scheduled_picture env w) in
  schedule_next_post env' w1 = announce_and_queue d w1
  /\ (d + 1 < timedelta_bound ->
      exists w',
        schedule_next_post env' w1 = (inr tt, w')
        /\ job_queue w'
           = job_queue w
             ++ [(d, PostScheduledPicture); (d + 1, ScheduleNextPost)])
  /\ (t' = t + 1 -> 2 <= I -> d = I - 1).
Proof.
  intros Hc HI Hfile Hsend Hnz t t' d w1.
  destruct (post_scheduled_picture_success env w c Hc Hfile Hsend)
    as [Hc1 _].
  destruct (post_scheduled_picture_quiet env w c Hc)
    as (_ & _ & _ & Hq1 & _).
  fold w1 in Hc1, Hq1.
  assert (next_delay (Some t) I t' = d) as Hd.
  { unfold next_delay, truthy_int. simpl.
    destruct (Z.eqb_spec t 0); [contradiction|]. reflexivity. }
  assert (0 < d) as Hpos by (subst d; destruct (Z.leb_spec (t + I) t'); lia).
  rewrite (schedule_next_post_delay env' w1 _ I (Some t) Hc1 HI eq_refl).
  fold t'. rewrite Hd. split; [reflexivity|]. split.
  - intros Hfit.
    destruct (announce_and_queue_queues d w1 ltac:(lia) Hfit)
      as (w' & Hrun & Hq & _).
    exists w'. split; [exact Hrun|]. now rewrite Hq, Hq1.
  - intros Ht' HI2. subst d. destruct (Z.leb_spec (t + I) t'); lia.
Qed.

(** X14.  A failed post is retried soon.  When the last post was at a
    non-zero [T], the next one is already due ([T + I <= t']) and the
    scheduled post fails because the picture is missing or the transmission
    raises, the scheduler run afterwards at [t'] queues the next attempt 1
    second ahead: a failure records no time, so the post stays overdue. *)
Theorem failed_post_is_retried_after_one_second
    (env env' : Env) (w : World) (c : Config) (T I : Z) :
  config_file w = Stored c ->
  last_post_time c = JInt T -> T <> 0 ->
  parse_time_interval (post_interval c) = inr I ->
  T + I <= time_time env' ->
  files w !! picture_path c = None \/ is_Some (send_photo_error env) ->
  exists w',
    schedule_next_post env' (snd (post_scheduled_picture env w))
    = (inr tt, w')
    /\ job_queue w'
       = job_queue w ++ [(1, PostScheduledPicture); (2, ScheduleNextPost)].
Proof.
  intros Hc HT Hnz HI Hdue Hfail.
  assert (config_file (snd (post_scheduled_picture env w)) = Stored c)
    as Hc1.
  { destruct (post_scheduled_picture_outcome env w c Hc)
      as [Hsame|(Hok & Hfile & _)]; [exact Hsame|].
    destruct Hfail as [Hmiss|[msg Herr]]; congruence. }
  destruct (post_scheduled_picture_quiet env w c Hc)
    as (_ & _ & _ & Hq1 & _).
  assert (get_last_post_time c = inr (Some T)) as Hlast
    by (unfold get_last_post_time; now rewrite HT).
  assert (next_delay (Some T) I (time_time env') = 1) as Hd.
  { unfold next_delay, truthy_int. simpl.
    destruct (Z.eqb_spec T 0); [contradiction|]. simpl.
    destruct (Z.leb_spec (T + I) (time_time env')); [reflexivity | lia]. }
  rewrite (schedule_next_post_delay env' _ c I _ Hc1 HI Hlast), Hd.
  destruct (announce_and_queue_queues 1 (snd (post_scheduled_picture env w))
              ltac:(lia) ltac:(reflexivity)) as (w' & Hrun & Hq & _).
  exists w'. split; [exact Hrun|]. now rewrite Hq, Hq1.
Qed.

(** X15.  Bounds on the delay.  With the [last_post_time] key present, the
    delay [schedule_next_post] computes is never negative; it is at least 1
    second when the interval is not zero; and when the recorded last post is
    not in the future it is at most one interval (or 1 second for a smaller
    interval).  When [delay + 1] is below the 86400000000000 seconds from
    which [timedelta] overflows, exactly two jobs are queued, the post and,
    one second later, the scheduler's own next run; otherwise the scheduler
    raises and its own next run is not queued. *)
Theorem schedule_next_post_delay_bounds
    (env : Env) (w : World) (c : Config) (I : Z) :
  config_file w = Stored c ->
  parse_time_interval (post_interval c) = inr I ->
  last_post_time c <> NoKey ->
  exists d,
    schedule_next_post env w = announce_and_queue d w
    /\ 0 <= d
    /\ (1 <= I -> 1 <= d)
    /\ ((forall T, last_post_time c = JInt T -> T <= time_time env) ->
        d <= Z.max 1 I)
    /\ (d + 1 < timedelta_bound ->
        exists w',
          schedule_next_post env w = (inr tt, w')
          /\ job_queue w'
             = job_queue w
               ++ [(d, PostScheduledPicture); (d + 1, ScheduleNextPost)])
    /\ (timedelta_bound <= d + 1 ->
        exists e w',
          schedule_next_post env w = (inl e, w')
          /\ ~ In ScheduleNextPost
                 (map snd (drop (length (job_queue w)) (job_queue w')))).
Proof.
  intros Hc HI Hkey.
  assert (exists last, get_last_post_time c = inr last
                       /\ forall T, last = Some T -> last_post_time c = JInt T)
    as (last & Hlast & HT).
  { unfold get_last_post_time.
    destruct (last_post_time c) as [| |T]; [contradiction| |];
      eexists; (split; [reflexivity|]); congruence. }
  pose proof (parse_time_interval_nonneg _ _ HI) as Hpos.
  exists (next_delay last I (time_time env)).
  rewrite (schedule_next_post_delay env w c I last Hc HI Hlast).
  split; [reflexivity|].
  assert (0 <= next_delay last I (time_time env)
          /\ (1 <= I -> 1 <= next_delay last I (time_time env))
          /\ ((forall T, last_post_time c = JInt T -> T <= time_time env) ->
              next_delay last I (time_time env) <= Z.max 1 I))
    as (Hd0 & Hd1 & Hdmax).
  { unfold next_delay, truthy_int.
    destruct last as [T|]; [|repeat split; lia].
    cbn. destruct (Z.eqb_spec T 0); cbn; [repeat split; lia|].
    destruct (Z.leb_spec (T + I) (time_time env)); repeat split; try lia.
    intros Hpast. specialize (Hpast T (HT T eq_refl)). lia. }
  repeat split; try assumption.
  - intros Hfit.
    destruct (announce_and_queue_queues _ w Hd0 Hfit) as (w' & Hrun & Hq & _).
    exists w'. now split.
  - intros Hover.
    destruct (announce_and_queue_overflow _ w Hd0 Hover)
      as (e & w' & Hrun & Hq & _).
    exists e, w'. split; [exact Hrun|].
    destruct Hq as [-> | ->].
    + rewrite drop_all. simpl. tauto.
    + rewrite drop_app_length. simpl. intros [[=]|[]].
Qed.

(** X16.  A stored [post_interval] that does not parse stops the
    scheduler: [schedule_next_post] and [main] raise the parser's
    [ValueError] without queuing any job, so no further post or rescheduling
    follows, and [status] raises it without any reply. *)
Theorem unparseable_interval_stops_the_scheduler
    (update : Update) (env : Env) (w : World) (c : Config) (e : exn) :
  config_file w = Stored c ->
  parse_time_interval (post_interval c) = inl e ->
  schedule_next_post env w = (inl e, w)
  /\ main env w = (inl e, w)
  /\ (effective_user_id update = admin_id c ->
      status update env w = (inl e, w))
  /\ exists text, e = ValueError text.
Proof.
  intros Hc He. repeat split.
  - unfold_entry Hc. unfold lift. now rewrite He.
  - unfold main, bind. rewrite (load_config_stored w c Hc).
    unfold_entry Hc. unfold lift. now rewrite He.
  - intros Hadmin. unfold_entry Hc.
    rewrite (not_admin_false update c Hadmin). unfold lift. now rewrite He.
  - exact (parse_time_interval_raises_ValueError _ _ He).
Qed.

(** X17.  [start] and [status] only read: whatever the stored
    configuration, the sender and the clock, they leave the configuration
    file, the files, the channel and the job queue as they were. *)
Theorem start_and_status_only_read
    (update : Update) (env : Env) (w : World) :
  let w1 := snd (start update env w) in
  let w2 := snd (status update env w) in
  (config_file w1 = config_file w /\ files w1 = files w
   /\ channel_posts w1 = channel_posts w /\ job_queue w1 = job_queue w)
  /\ (config_file w2 = config_file w /\ files w2 = files w
      /\ channel_posts w2 = channel_posts w /\ job_queue w2 = job_queue w).
Proof.
  intros w1 w2. subst w1 w2. unfold start, status, bind, load_config.
  destruct (config_file w) eqn:Hc; run_handler; repeat split; congruence.
Qed.

(** The path [set_picture] saves a download under (line 217). *)
Lemma set_picture_run
    (update : Update) (env : Env) (w : World) (c : Config)
    (size : pystr) (sizes : list pystr) :
  config_file w = Stored c ->
  effective_user_id update = admin_id c ->
  reply_to_photo update = Some (size :: sizes) ->
  files w !! txt "pictures" <> Some RegularFile ->
  download_error env = None ->
  let path :=
    txt "pictures/picture_" ++ txt (pretty (time_time env)) ++ txt ".jpg" in
  let w' := snd (set_picture update env w) in
  fst (set_picture update env w) = inr tt
  /\ config_file w' = Stored (set_picture_path path c)
  /\ files w' !! path = Some RegularFile
  /\ replies w' = replies w ++ [txt "Picture set to " ++ path]
  /\ channel_posts w' = channel_posts w.
Proof.
  intros Hc Hadmin Hphoto Hdir Hdl path w'. subst w'. unfold_entry Hc.
  rewrite (not_admin_false update c Hadmin), Hphoto.
  unfold bind, makedirs, download, save_config, bind. rewrite Hdl.
  destruct (files w !! txt "pictures") as [[|]|] eqn:Hp; [contradiction| |];
    cbn; repeat split; apply lookup_insert_eq.
Qed.

(** X18.  A picture set with [set_picture] is the one posted next.  When
    the admin replies to a photo, the download succeeds and [pictures] is
    not a regular file, the photo is saved as
    [pictures/picture_<time>.jpg], that path is stored as [picture_path]
    and confirmed; a following [post_now] by the admin whose transmission
    succeeds sends exactly that file to the configured channel. *)
Theorem set_picture_then_post_now
    (update update' : Update) (env env' : Env) (w : World) (c : Config)
    (size : pystr) (sizes : list pystr) :
  config_file w = Stored c ->
  effective_user_id update = admin_id c ->
  effective_user_id update' = admin_id c ->
  reply_to_photo update = Some (size :: sizes) ->
  files w !! txt "pictures" <> Some RegularFile ->
  download_error env = None ->
  send_photo_error env' = None ->
  let path :=
    txt "pictures/picture_" ++ txt (pretty (time_time env)) ++ txt ".jpg" in
  let w1 := snd (set_picture update env w) in
  let w2 := snd (post_now update' env' w1) in
  config_file w1 = Stored (set_picture_path path c)
  /\ replies w1 = replies w ++ [txt "Picture set to " ++ path]
  /\ channel_posts w2 = channel_posts w ++ [(channel_name c, path)]
  /\ config_file w2
     = Stored (set_last_post_time (time_time env')
                 (set_picture_path path c)).
Proof.
  intros Hc Hadmin Hadmin' Hphoto Hdir Hdl Hsend path w1 w2.
  destruct (set_picture_run update env w c size sizes Hc Hadmin Hphoto Hdir
              Hdl) as (_ & Hc1 & Hfile & Hrep & Hposts).
  fold path in Hc1, Hfile, Hrep. fold w1 in Hc1, Hfile, Hrep, Hposts.
  destruct (post_now_success_aux update' env' w1 (set_picture_path path c)
              Hc1 Hadmin' Hfile Hsend) as (Hc2 & Hposts2 & _).
  fold w2 in Hc2, Hposts2. rewrite Hposts in Hposts2. auto.
Qed.

(** X19.  When [set_picture] stores nothing.  If the command is not a
    reply to a photo the admin is told to reply to one and nothing else
    changes.  If the download raises, or [pictures] exists as a regular
    file so the directory cannot be made, the exception escapes the handler:
    the configuration keeps its picture and no reply is sent. *)
Theorem set_picture_stores_nothing_on_failure
    (update : Update) (env : Env) (w : World) (c : Config) :
  config_file w = Stored c ->
  effective_user_id update = admin_id c ->
  let w' := snd (set_picture update env w) in
  ((reply_to_photo update = None \/ reply_to_photo update = Some []) ->
   set_picture update env w
   = (inr tt,
      with_replies
        (replies w
         ++ [txt "Please reply to a photo with /setpicture to set it as the picture to post."])
        w))
  /\ (forall size sizes msg,
        reply_to_photo update = Some (size :: sizes) ->
        files w !! txt "pictures" <> Some RegularFile ->
        download_error env = Some msg ->
        fst (set_picture update env w) = inl (NetworkError msg)
        /\ config_file w' = Stored c /\ replies w' = replies w)
  /\ (forall size sizes,
        reply_to_photo update = Some (size :: sizes) ->
        files w !! txt "pictures" = Some RegularFile ->
        set_picture update env w
        = (inl (FileExistsError (txt "pictures")), w)).
Proof.
  intros Hc Hadmin w'. subst w'. unfold_entry Hc.
  rewrite (not_admin_false update c Hadmin). split; [|split].
  - intros [-> | ->]; reflexivity.
  - intros size sizes msg Hphoto Hdir Hdl. rewrite Hphoto.
    unfold bind, makedirs, download. rewrite Hdl.
    destruct (files w !! txt "pictures") as [[|]|]; [contradiction| |];
      cbn; now repeat split.
  - intros size sizes Hphoto Hfile. rewrite Hphoto.
    unfold bind, makedirs. now rewrite Hfile.
Qed.

(** X20.  What [set_interval] answers.  Invoked by the admin it never
    raises and sends exactly one reply: the usage text without an argument;
    the text of the parser's [ValueError] when the argument does not parse;
    the 10-second notice when it parses below 10; and otherwise a
    confirmation showing the argument and its canonical form, or, when the
    value is too large for [format_time_interval], the text of the
    [ValueError] that raises (the argument has been stored by then). *)
Theorem set_interval_answers
    (update : Update) (env : Env) (w : World) (c : Config) :
  config_file w = Stored c ->
  effective_user_id update = admin_id c ->
  let w' := snd (set_interval update env w) in
  fst (set_interval update env w) = inr tt
  /\ exists text,
      replies w' = replies w ++ [text]
      /\ match args update with
         | [] => True
         | a :: _ =>
             match parse_time_interval a with
             | inl e => text = str_exn e
             | inr n =>
                 if n <? 10
                 then text = txt "Interval must be at least 10 seconds."
                 else
                   match format_time_interval n with
                   | inr shown =>
                       text = txt "Posting interval set to " ++ a
                              ++ txt " (" ++ shown ++ txt ")"
                   | inl e => text = str_exn e
                   end
             end
         end.
Proof.
  intros Hc Hadmin w'. subst w'. unfold_entry Hc.
  rewrite (not_admin_false update c Hadmin).
  destruct (args update) as [|a rest]; [split; [reflexivity|eauto]|].
  unfold try_except, bind, lift, save_config, bind.
  destruct (parse_time_interval a) as [e|n] eqn:Hn.
  - destruct (parse_time_interval_raises_ValueError a e Hn) as [msg ->].
    cbn. split; eauto.
  - destruct (n <? 10); [cbn; split; eauto|].
    destruct (format_time_interval n) as [e|shown] eqn:Hf.
    + apply format_time_interval_raises in Hf. subst e.
      unfold too_many_digits_for_str. cbn.
      split; [reflexivity|]. eexists. split; reflexivity.
    + cbn. split; eauto.
Qed.

(** X21.  A new interval applies from the next scheduling on.  An accepted
    [set_interval] leaves the job queue alone, so a wait already queued is
    not shortened or cancelled; the next run of [schedule_next_post]
    computes its delay from the new interval and the unchanged
    [last_post_time]; that delay is at least 1, with no post recorded yet it
    is the new interval, and when [delay + 1] is below the 86400000000000
    seconds from which [timedelta] overflows the two jobs are queued with
    it. *)
Theorem new_interval_applies_at_next_scheduling
    (update : Update) (env env' : Env) (w : World) (c : Config)
    (a : pystr) (rest : list pystr) (n : Z) (last : option Z) :
  config_file w = Stored c ->
  effective_user_id update = admin_id c ->
  args update = a :: rest ->
  parse_time_interval a = inr n ->
  10 <= n ->
  get_last_post_time c = inr last ->
  let w1 := snd (set_interval update env w) in
  let d := next_delay last n (time_time env') in
  job_queue w1 = job_queue w
  /\ schedule_next_post env' w1 = announce_and_queue d w1
  /\ 1 <= d
  /\ (last = None -> d = n)
  /\ (d + 1 < timedelta_bound ->
      exists w2,
        schedule_next_post env' w1 = (inr tt, w2)
        /\ job_queue w2
           = job_queue w
             ++ [(d, PostScheduledPicture); (d + 1, ScheduleNextPost)]).
Proof.
  intros Hc Hadmin Hargs Hn Hfloor Hlast w1 d.
  assert (config_file w1 = Stored (set_post_interval a c)
          /\ job_queue w1 = job_queue w) as [Hc1 Hq1].
  { subst w1. unfold_entry Hc.
    rewrite (not_admin_false update c Hadmin), Hargs.
    unfold try_except, bind, lift, save_config, bind, logger_info,
      reply_text. rewrite Hn.
    destruct (Z.ltb_spec n 10); [lia|].
    destruct (format_time_interval n) as [e|shown] eqn:Hf; [|now split].
    apply format_time_interval_raises in Hf. subst e. now split. }
  assert (1 <= d /\ (last = None -> d = n)) as [Hd1 Hdn].
  { subst d. unfold next_delay, truthy_int.
    destruct last as [T|]; [|split; [lia|reflexivity]].
    cbn. destruct (Z.eqb_spec T 0); cbn; [split; [lia|discriminate]|].
    destruct (Z.leb_spec (T + n) (time_time env')); split;
      try lia; discriminate. }
  split; [exact Hq1|].
  rewrite (schedule_next_post_delay env' w1 (set_post_interval a c) n last
             Hc1 Hn Hlast).
  fold d. repeat split; try assumption.
  intros Hfit.
  destruct (announce_and_queue_queues d w1 ltac:(lia) Hfit)
    as (w2 & Hrun & Hq & _).
  exists w2. split; [exact Hrun|]. now rewrite Hq, Hq1.
Qed.

End EntryFacts.

(** * The further properties at concrete inputs *)

Lemma identity_is_never_rewritten_witness :
  exists c',
    config_file (run_all sample_trace (sample_world posted_config)) = Stored c'
    /\ admin_id c' = 42 /\ bot_token c' = txt "token".
Proof.
  apply (@identity_is_never_rewritten seconds_clock sample_trace
           (sample_world posted_config) posted_config).
  reflexivity.
Defined.

Lemma validated_fields_stay_valid_witness :
  exists c',
    config_file (run_all sample_trace (sample_world posted_config)) = Stored c'
    /\ interval_ok c' /\ channel_ok c'.
Proof.
  destruct (@validated_fields_stay_valid seconds_clock sample_trace
              (sample_world posted_config) posted_config eq_refl)
    as (c' & Hc' & Hinterval & Hchannel).
  exists c'. split; [exact Hc'|]. split.
  - apply Hinterval. exists 60. split; [reflexivity | lia].
  - apply Hchannel. reflexivity.
Defined.

Lemma unreadable_config_stops_everything_witness :
  fst (run_entry (OnJob ScheduleNextPost) (sample_env 1000 None)
         world_without_config)
  = inl (FileNotFoundError CONFIG_FILE)
  /\ job_queue (snd (main (sample_env 1000 None) world_without_config)) = [].
Proof.
  destruct (@unreadable_config_stops_everything seconds_clock
              (OnJob ScheduleNextPost) (sample_env 1000 None)
              world_without_config) as [Hmissing _].
  destruct (Hmissing eq_refl) as [Hentry Hmain].
  split; [now rewrite Hentry | now rewrite Hmain].
Defined.

Lemma set_channel_checks_the_name_witness :
  config_file
    (snd (set_channel (mkUpdate 42 [txt "@news"] None) (sample_env 1000 None)
            (sample_world posted_config)))
  = Stored (set_channel_name (txt "@news") posted_config)
  /\ config_file
       (snd (set_channel (mkUpdate 42 [txt "news"] None)
               (sample_env 1000 None) (sample_world posted_config)))
     = Stored posted_config.
Proof.
  split.
  - exact (proj1 (proj2 (@set_channel_checks_the_name seconds_clock
                           (mkUpdate 42 [txt "@news"] None)
                           (sample_env 1000 None)
                           (sample_world posted_config) posted_config
                           eq_refl eq_refl))).
  - exact (proj1 (proj2 (@set_channel_checks_the_name seconds_clock
                           (mkUpdate 42 [txt "news"] None)
                           (sample_env 1000 None)
                           (sample_world posted_config) posted_config
                           eq_refl eq_refl))).
Defined.

Lemma post_now_always_answers_witness :
  fst (post_now admin_update (sample_env 1000 (Some (txt "timed out")))
         (sample_world posted_config))
  = inr tt.
Proof.
  exact (proj1 (@post_now_always_answers seconds_clock admin_update
                  (sample_env 1000 (Some (txt "timed out")))
                  (sample_world posted_config) posted_config eq_refl)).
Defined.

Lemma post_now_success_witness :
  config_file
    (snd (post_now admin_update (sample_env 1000 None)
            (sample_world posted_config)))
  = Stored (sample_config "1m" (JInt 1000)).
Proof.
  exact (proj1 (@post_now_success seconds_clock admin_update
                  (sample_env 1000 None) (sample_world posted_config)
                  posted_config eq_refl eq_refl eq_refl eq_refl)).
Defined.

Lemma post_now_reports_failure_witness :
  replies
    (snd (post_now admin_update (sample_env 1000 (Some (txt "timed out")))
            (sample_world posted_config)))
  = [txt "Error posting picture: timed out"].
Proof.
  destruct (@post_now_reports_failure seconds_clock admin_update
              (sample_env 1000 (Some (txt "timed out")))
              (sample_world posted_config) posted_config eq_refl eq_refl)
    as (_ & _ & Hsend).
  exact (Hsend (txt "timed out") eq_refl eq_refl).
Defined.

Lemma post_scheduled_picture_is_quiet_witness :
  replies
    (snd (post_scheduled_picture (sample_env 1000 (Some (txt "timed out")))
            (sample_world posted_config)))
  = [].
Proof.
  destruct (@post_scheduled_picture_is_quiet seconds_clock
              (sample_env 1000 (Some (txt "timed out")))
              (sample_world posted_config) posted_config eq_refl)
    as (_ & Hreplies & _).
  exact Hreplies.
Defined.

Lemma next_post_is_one_interval_after_the_last_witness :
  exists w',
    schedule_next_post (sample_env 1001 None)
      (snd (post_scheduled_picture (sample_env 1000 None)
              (sample_world posted_config)))
    = (inr tt, w')
    /\ job_queue w' = [(59, PostScheduledPicture); (60, ScheduleNextPost)].
Proof.
  pose proof (@next_post_is_one_interval_after_the_last seconds_clock
                (sample_env 1000 None) (sample_env 1001 None)
                (sample_world posted_config) posted_config 60
                eq_refl eq_refl eq_refl eq_refl ltac:(discriminate))
    as Hrun.
  cbv zeta in Hrun. destruct Hrun as (_ & Hqueue & _).
  exact (Hqueue eq_refl).
Defined.

Lemma failed_post_is_retried_after_one_second_witness :
  exists w',
    schedule_next_post (sample_env 1001 None)
      (snd (post_scheduled_picture (sample_env 1000 (Some (txt "timed out")))
              (sample_world posted_config)))
    = (inr tt, w')
    /\ job_queue w' = [(1, PostScheduledPicture); (2, ScheduleNextPost)].
Proof.
  apply (@failed_post_is_retried_after_one_second seconds_clock
           (sample_env 1000 (Some (txt "timed out"))) (sample_env 1001 None)
           (sample_world posted_config) posted_config 100 60);
    [reflexivity | reflexivity | lia | reflexivity | simpl; lia |].
  right. exists (txt "timed out"). reflexivity.
Defined.

Lemma schedule_next_post_delay_bounds_witness :
  exists d w',
    schedule_next_post (sample_env 130 None) (sample_world posted_config)
    = (inr tt, w')
    /\ job_queue w' = [(d, PostScheduledPicture); (d + 1, ScheduleNextPost)]
    /\ 0 <= d /\ 1 <= d /\ d <= 60.
Proof.
  destruct (@schedule_next_post_delay_bounds seconds_clock
              (sample_env 130 None) (sample_world posted_config)
              posted_config 60 eq_refl eq_refl ltac:(discriminate))
    as (d & Hdelay & Hnonneg & Hpos & Hmax & Hfit & _).
  assert (d <= 60) as Hle.
  { apply Hmax. intros T [= <-]. simpl. lia. }
  destruct (Hfit ltac:(unfold timedelta_bound; lia)) as (w' & Hrun & Hqueue).
  exists d, w'. repeat split; try assumption. apply Hpos. lia.
Defined.

Lemma unparseable_interval_stops_the_scheduler_witness :
  schedule_next_post (sample_env 1000 None)
    (sample_world (sample_config "soon" JNull))
  = (inl (invalid_format (txt "soon")),
     sample_world (sample_config "soon" JNull)).
Proof.
  exact (proj1 (@unparseable_interval_stops_the_scheduler seconds_clock
                  admin_update (sample_env 1000 None)
                  (sample_world (sample_config "soon" JNull))
                  (sample_config "soon" JNull) (invalid_format (txt "soon"))
                  eq_refl eq_refl)).
Defined.

Lemma set_picture_then_post_now_witness :
  channel_posts
    (snd (post_now admin_update (sample_env 2000 None)
            (snd (set_picture
                    (mkUpdate 42 [] (Some [txt "small"; txt "large"]))
                    (sample_env 1000 None) (sample_world posted_config)))))
  = [(txt "@channel", txt "pictures/picture_1000.jpg")].
Proof.
  destruct (@set_picture_then_post_now seconds_clock
              (mkUpdate 42 [] (Some [txt "small"; txt "large"])) admin_update
              (sample_env 1000 None) (sample_env 2000 None)
              (sample_world posted_config) posted_config
              (txt "small") [txt "large"]
              eq_refl eq_refl eq_refl eq_refl
              ltac:(intros Hfile; vm_compute in Hfile; discriminate Hfile)
              eq_refl eq_refl)
    as (_ & _ & Hposts & _).
  exact Hposts.
Defined.

Lemma set_picture_stores_nothing_on_failure_witness :
  replies
    (snd (set_picture admin_update (sample_env 1000 None)
            (sample_world posted_config)))
  = [txt "Please reply to a photo with /setpicture to set it as the picture to post."]
  /\ config_file
       (snd (set_picture (mkUpdate 42 [] (Some [txt "small"]))
               (@mkEnv seconds_clock 1000 1000 None (Some (txt "timed out")))
               (sample_world posted_config)))
     = Stored posted_config.
Proof.
  split.
  - destruct (@set_picture_stores_nothing_on_failure seconds_clock
                admin_update (sample_env 1000 None)
                (sample_world posted_config) posted_config eq_refl eq_refl)
      as (Hnophoto & _).
    rewrite (Hnophoto (or_introl eq_refl)). reflexivity.
  - destruct (@set_picture_stores_nothing_on_failure seconds_clock
                (mkUpdate 42 [] (Some [txt "small"]))
                (@mkEnv seconds_clock 1000 1000 None
                   (Some (txt "timed out")))
                (sample_world posted_config) posted_config eq_refl eq_refl)
      as (_ & Hdownload & _).
    apply (Hdownload (txt "small") [] (txt "timed out") eq_refl);
      [intros Hfile; vm_compute in Hfile; discriminate Hfile | reflexivity].
Defined.

Lemma set_interval_answers_witness :
  fst (set_interval (mkUpdate 42 [txt "soon"] None) (sample_env 1000 None)
         (sample_world posted_config))
  = inr tt.
Proof.
  exact (proj1 (@set_interval_answers seconds_clock
                  (mkUpdate 42 [txt "soon"] None) (sample_env 1000 None)
                  (sample_world posted_config) posted_config
                  eq_refl eq_refl)).
Defined.

Lemma new_interval_applies_at_next_scheduling_witness :
  exists w2,
    schedule_next_post (sample_env 1001 None)
      (snd (set_interval (mkUpdate 42 [txt "2h"] None) (sample_env 1000 None)
              (sample_world (sample_config "1m" JNull))))
    = (inr tt, w2)
    /\ job_queue w2 = [(7200, PostScheduledPicture); (7201, ScheduleNextPost)].
Proof.
  pose proof (@new_interval_applies_at_next_scheduling seconds_clock
                (mkUpdate 42 [txt "2h"] None) (sample_env 1000 None)
                (sample_env 1001 None)
                (sample_world (sample_config "1m" JNull))
                (sample_config "1m" JNull) (txt "2h") [] 7200 None
                eq_refl eq_refl eq_refl eq_refl ltac:(lia) eq_refl) as Hrun.
  cbv zeta in Hrun. destruct Hrun as (_ & _ & _ & _ & Hqueue).
  exact (Hqueue eq_refl).
Defined.
